(** * storj.io/private/version: rollout cursors, semantic versions and the
      update decision

    A shallow embedding of [version/version.go].  Go byte slices and
    strings are lists of [Byte.byte]; [big.Int] is [Z]; [float64] is
    Rocq's primitive binary64 [float]; [uint64] is [N] with the range
    written out where the code depends on it. *)

From Stdlib Require Import Strings.String.
From Stdlib Require Import ZArith NArith List Lia Bool Arith.
From Stdlib Require Import Init.Byte Strings.Byte.
From Stdlib Require Import Floats.
Import ListNotations.

Local Open Scope Z_scope.

(* ================================================================== *)
(** * Bytes and byte slices *)

Definition byte_val (b : byte) : Z := Z.of_N (Byte.to_N b).

Definition byte_of_Z (z : Z) : byte :=
  match Byte.of_N (Z.to_N (z mod 256)) with
  | Some b => b
  | None => x00
  end.

(** A Go string literal, as the bytes of its UTF-8 encoding. *)
Definition str (s : string) : list byte := list_byte_of_string s.

(** The big-endian unsigned integer a byte slice denotes. *)
Definition be_value (bs : list byte) : Z :=
  fold_left (fun acc b => acc * 256 + byte_val b) bs 0.

(** The [n] low-order bytes of [x], most significant first. *)
Fixpoint be_bytes (n : nat) (x : Z) : list byte :=
  match n with
  | O => []
  | S n' => byte_of_Z (Z.shiftr x (8 * Z.of_nat n')) :: be_bytes n' x
  end.

(** Go's builtin [copy(dst, src)]: the first [min (len dst) (len src)]
    bytes of [dst] are overwritten, the rest of [dst] is kept. *)
Definition copy (dst src : list byte) : list byte :=
  firstn (length dst) src ++ skipn (length src) dst.

(** [bytes.Compare]: lexicographic order on byte slices, as [-1], [0], [1]. *)
Fixpoint bytes_Compare (a b : list byte) : Z :=
  match a, b with
  | [], [] => 0
  | [], _ :: _ => -1
  | _ :: _, [] => 1
  | x :: a', y :: b' =>
      if byte_val x <? byte_val y then -1
      else if byte_val y <? byte_val x then 1
      else bytes_Compare a' b'
  end.


(* ================================================================== *)
(** * math/big, as far as the cursor arithmetic uses it *)

Module big.

Definition Int := Z.

Definition NewInt (x : Z) : Int := x.

(** [SetBytes] reads a big-endian unsigned integer. *)
Definition SetBytes (buf : list byte) : Int := be_value buf.

Definition Mul (x y : Int) : Int := x * y.

(** [Div] is Euclidean division: the remainder is never negative.  (A
    zero divisor panics in Go; both divisors here are non-zero
    constants.) *)
Definition Div (x y : Int) : Int := Z.sgn y * (x / Z.abs y).

(** Number of bytes of the shortest big-endian form of [a >= 0]. *)
Definition byte_len (a : Z) : nat :=
  if a =? 0 then O else Z.to_nat (Z.log2 a / 8 + 1).

(** [Bytes] is the absolute value, big-endian, without leading zero
    bytes; the sign is dropped and zero is the empty slice. *)
Definition Bytes (x : Int) : list byte :=
  be_bytes (byte_len (Z.abs x)) (Z.abs x).

End big.

(* ================================================================== *)
(** * float64 to int64 *)

(** Go's conversion [int64(f)] discards the fraction.  For NaN, the
    infinities and values outside the int64 range Go leaves the result to
    the target; amd64 yields the "integer indefinite" value [-2^63], which
    is what this model returns there. *)
Definition int64_indefinite : Z := - 2 ^ 63.

Definition int64_of_float64 (f : float) : Z :=
  match Prim2SF f with
  | S754_zero _ => 0
  | S754_finite s m e =>
      let a := if 0 <=? e then Z.pos m * 2 ^ e else Z.pos m / 2 ^ (- e) in
      let t := if s then - a else a in
      if (- 2 ^ 63 <=? t) && (t <? 2 ^ 63) then t else int64_indefinite
  | S754_infinity _ | S754_nan => int64_indefinite
  end.

(* ================================================================== *)
(** * RolloutBytes and the percentage mappers *)

(** [type RolloutBytes [32]byte]: a list of bytes, of length 32 when
    well formed. *)
Definition RolloutBytes := list byte.

Definition wf_RolloutBytes (rb : RolloutBytes) : Prop := length rb = 32%nat.

(** The zero value [RolloutBytes{}]. *)
Definition zeroRolloutBytes : RolloutBytes := repeat x00 32.

(** [a[i] = v] on an array (the index is in range in every use). *)
Fixpoint store (a : list byte) (i : nat) (v : byte) : list byte :=
  match a, i with
  | [], _ => []
  | _ :: a', O => v :: a'
  | x :: a', S i' => x :: store a' i' v
  end.

(** [for i := 0; i < len(maxBytes); i++ { maxBytes[i] = 255 }] *)
Definition maxBytes : RolloutBytes :=
  fold_left (fun mb i => store mb i xff)
            (seq 0 (length zeroRolloutBytes)) zeroRolloutBytes.

(** The scaled percentage [int64(pct*10000)] of [PercentageToCursorF]. *)
Definition scaled (pct : float) : Z :=
  int64_of_float64 (PrimFloat.mul pct 10000%float).

Definition PercentageToCursorF (pct : float) : RolloutBytes :=
  let maxInt := big.SetBytes maxBytes in
  let maskInt :=
    big.Mul (big.Div maxInt (big.NewInt (100 * 10000)))
            (big.NewInt (scaled pct)) in
  let cursor := zeroRolloutBytes in
  copy cursor (big.Bytes maskInt).

Definition PercentageToCursor (pct : Z) : RolloutBytes :=
  let maxInt := big.SetBytes maxBytes in
  let maskInt :=
    big.Div (big.Mul maxInt (big.NewInt pct)) (big.NewInt 100) in
  let cursor := zeroRolloutBytes in
  copy cursor (big.Bytes maskInt).

(** [MAX = 2^256 - 1], the largest cursor. *)
Definition MAX : Z := 2 ^ 256 - 1.

(* ================================================================== *)
(** * crypto/sha256 and crypto/hmac

    The digest functions the rollout gate calls, following FIPS 180-4 and
    RFC 2104.  Words are integers kept below [2^32]. *)

Module sha256.

Definition BlockSize : nat := 64.
Definition Size : nat := 32.

Definition w32 (x : Z) : Z := x mod 2 ^ 32.
Definition add32 (x y : Z) : Z := w32 (x + y).
Definition rotr (n x : Z) : Z :=
  Z.lor (Z.shiftr x n) (w32 (Z.shiftl x (32 - n))).
Definition not32 (x : Z) : Z := 2 ^ 32 - 1 - x.

Definition Ch (x y z : Z) : Z :=
  Z.lxor (Z.land x y) (Z.land (not32 x) z).
Definition Maj (x y z : Z) : Z :=
  Z.lxor (Z.lxor (Z.land x y) (Z.land x z)) (Z.land y z).
Definition Sigma0 (x : Z) : Z :=
  Z.lxor (Z.lxor (rotr 2 x) (rotr 13 x)) (rotr 22 x).
Definition Sigma1 (x : Z) : Z :=
  Z.lxor (Z.lxor (rotr 6 x) (rotr 11 x)) (rotr 25 x).
Definition sigma0 (x : Z) : Z :=
  Z.lxor (Z.lxor (rotr 7 x) (rotr 18 x)) (Z.shiftr x 3).
Definition sigma1 (x : Z) : Z :=
  Z.lxor (Z.lxor (rotr 17 x) (rotr 19 x)) (Z.shiftr x 10).

(** The integer [k]-th root of [n], built bit by bit from bit [bits-1]
    down. *)
Fixpoint iroot (k : Z) (bits : nat) (n r : Z) : Z :=
  match bits with
  | O => r
  | S b =>
      let c := r + 2 ^ Z.of_nat b in
      iroot k b n (if c ^ k <=? n then c else r)
  end.

(** The first 32 bits of the fractional part of the [k]-th root of [p]. *)
Definition frac_root (k p : Z) : Z :=
  w32 (iroot k 40 (p * 2 ^ (32 * k)) 0).

Definition is_prime (p : Z) : bool :=
  forallb (fun d => negb (p mod Z.of_nat d =? 0)) (seq 2 (Z.to_nat p - 2)).

(** The first sixty-four primes. *)
Definition primes : list Z :=
  Eval vm_compute in filter is_prime (map Z.of_nat (seq 2 310)).

(** The round constants: fractional parts of the cube roots of the
    primes. *)
Definition K : list Z := Eval vm_compute in map (frac_root 3) primes.

(** The eight working words of the digest. *)
Record state : Set := State {
  ha : Z; hb : Z; hc : Z; hd : Z; he : Z; hf : Z; hg : Z; hh : Z
}.

(** The initial state: fractional parts of the square roots of the first
    eight primes. *)
Definition init : state :=
  Eval vm_compute in
    match map (frac_root 2) (firstn 8 primes) with
    | [a; b; c; d; e; f; g; h] => State a b c d e f g h
    | _ => State 0 0 0 0 0 0 0 0
    end.

(** Padding: a one bit, zero bits up to 56 mod 64 bytes, then the bit
    length as a 64-bit big-endian integer. *)
Definition pad (msg : list byte) : list byte :=
  let len := Z.of_nat (length msg) in
  msg ++ [x80] ++ repeat x00 (Z.to_nat ((55 - len) mod 64))
      ++ be_bytes 8 (8 * len).

Fixpoint chunks (fuel size : nat) (l : list byte) : list (list byte) :=
  match fuel with
  | O => []
  | S fuel' =>
      match l with
      | [] => []
      | _ :: _ => firstn size l :: chunks fuel' size (skipn size l)
      end
  end.

(** The first sixteen schedule words of a block. *)
Definition block_words (blk : list byte) : list Z :=
  map be_value (chunks 16 4 blk).

(** One more schedule word, from the sixteen before it ([w] holds the
    schedule so far, oldest word first). *)
Definition next_word (w : list Z) : Z :=
  let t := length w in
  let at_ (i : nat) := nth (t - i) w 0 in
  add32 (add32 (add32 (sigma1 (at_ 2%nat)) (at_ 7%nat))
               (sigma0 (at_ 15%nat)))
        (at_ 16%nat).

Definition schedule (blk : list byte) : list Z :=
  fold_left (fun w _ => w ++ [next_word w]) (seq 16 48) (block_words blk).

Definition round (s : state) (kw : Z * Z) : state :=
  let '(k, w) := kw in
  let t1 := add32 (add32 (add32 (add32 (hh s) (Sigma1 (he s)))
                                (Ch (he s) (hf s) (hg s))) k) w in
  let t2 := add32 (Sigma0 (ha s)) (Maj (ha s) (hb s) (hc s)) in
  State (add32 t1 t2) (ha s) (hb s) (hc s)
        (add32 (hd s) t1) (he s) (hf s) (hg s).

Definition block (s : state) (blk : list byte) : state :=
  let r := fold_left round (combine K (schedule blk)) s in
  State (add32 (ha s) (ha r)) (add32 (hb s) (hb r))
        (add32 (hc s) (hc r)) (add32 (hd s) (hd r))
        (add32 (he s) (he r)) (add32 (hf s) (hf r))
        (add32 (hg s) (hg r)) (add32 (hh s) (hh r)).

Definition digest (s : state) : list byte :=
  be_bytes 4 (ha s) ++ be_bytes 4 (hb s) ++ be_bytes 4 (hc s)
  ++ be_bytes 4 (hd s) ++ be_bytes 4 (he s) ++ be_bytes 4 (hf s)
  ++ be_bytes 4 (hg s) ++ be_bytes 4 (hh s).

(** [sha256.Sum256], and [Write] followed by [Sum(nil)] on a fresh hash. *)
Definition Sum256 (msg : list byte) : list byte :=
  let p := pad msg in
  digest (fold_left block (chunks (length p) BlockSize p) init).

End sha256.

Module hmac.

Definition xor_byte (c b : byte) : byte :=
  byte_of_Z (Z.lxor (byte_val c) (byte_val b)).

(** [hmac.New(sha256.New, key)], [Write(msg)], [Sum(nil)]: a key longer
    than a block is hashed first, then padded with zeros to a block. *)
Definition Sum (key msg : list byte) : list byte :=
  let key := if (sha256.BlockSize <? length key)%nat
             then sha256.Sum256 key else key in
  let block := key ++ repeat x00 (sha256.BlockSize - length key) in
  let ipad := map (xor_byte x36) block in
  let opad := map (xor_byte x5c) block in
  sha256.Sum256 (opad ++ sha256.Sum256 (ipad ++ msg)).

End hmac.

(* ================================================================== *)
(** * Outcomes of Go calls *)

(** A call either returns or panics (index or slice bounds out of range). *)
Inductive run (A : Type) : Type :=
| Returns (a : A)
| Panics.

Arguments Returns {A} a.
Arguments Panics {A}.

(* ================================================================== *)
(** * encoding/hex *)

Module hex.

Inductive error : Set :=
| InvalidByteError (b : byte)
| ErrLength.

Definition hextable : list byte := str "0123456789abcdef".

Definition EncodedLen (n : nat) : nat := n * 2.

(** [Encode(dst, src)] with [dst] of length [EncodedLen(len(src))]: the
    bytes written to [dst]. *)
Definition Encode (src : list byte) : list byte :=
  flat_map (fun v =>
              [ nth (Z.to_nat (Z.shiftr (byte_val v) 4)) hextable x00;
                nth (Z.to_nat (Z.land (byte_val v) 0x0f)) hextable x00 ])
           src.

Definition between (lo c hi : byte) : bool :=
  (byte_val lo <=? byte_val c) && (byte_val c <=? byte_val hi).

(** [fromHexChar]: the value of a hex digit, of either case. *)
Definition fromHexChar (c : byte) : option Z :=
  if between "0" c "9" then Some (byte_val c - byte_val "0")
  else if between "a" c "f" then Some (byte_val c - byte_val "a" + 10)
  else if between "A" c "F" then Some (byte_val c - byte_val "A" + 10)
  else None.

(** [Decode(dst, src)]: pairs of digits are decoded into [dst] from
    index [i] on, until the input ends or a digit is invalid; the bytes
    written before an error stay written.  Writing past the end of [dst]
    panics.  The result is [dst] after the call, the count and the
    error. *)
Fixpoint Decode_from (dst : list byte) (i : nat) (src : list byte)
  : run (list byte * nat * option error) :=
  match src with
  | [] => Returns (dst, i, None)
  | [p] =>
      match fromHexChar p with
      | None => Returns (dst, i, Some (InvalidByteError p))
      | Some _ => Returns (dst, i, Some ErrLength)
      end
  | p :: q :: rest =>
      match fromHexChar p with
      | None => Returns (dst, i, Some (InvalidByteError p))
      | Some a =>
          match fromHexChar q with
          | None => Returns (dst, i, Some (InvalidByteError q))
          | Some b =>
              if (i <? length dst)%nat
              then Decode_from
                     (store dst i (byte_of_Z (Z.lor (Z.shiftl a 4) b)))
                     (S i) rest
              else Panics
          end
      end
  end.

Definition Decode (dst src : list byte)
  : run (list byte * nat * option error) :=
  Decode_from dst 0 src.

(** The bytes a text denotes when it is valid hex: an even number of
    hex digits.  (This is what [hex.DecodeString] returns without an
    error; the package under study does not call it.) *)
Fixpoint denotes (src : list byte) : option (list byte) :=
  match src with
  | [] => Some []
  | [_] => None
  | p :: q :: rest =>
      match fromHexChar p, fromHexChar q, denotes rest with
      | Some a, Some b, Some bs =>
          Some (byte_of_Z (Z.lor (Z.shiftl a 4) b) :: bs)
      | _, _, _ => None
      end
  end.

End hex.

(* ================================================================== *)
(** * Errors of the version package *)

(** What [semver.Parse], [semver.ParseTolerant] and [semver.NewPRVersion]
    report. *)
Inductive semver_error : Set :=
| ErrShortVersionMeta      (* Short version cannot contain PreRelease/Build meta data *)
| ErrEmpty                 (* Version string empty *)
| ErrNoElements            (* No Major.Minor.Patch elements found *)
| ErrMajorChars | ErrMajorLeadingZeroes
| ErrMinorChars | ErrMinorLeadingZeroes
| ErrPatchChars | ErrPatchLeadingZeroes
| ErrSyntax | ErrRange     (* strconv.ParseUint *)
| ErrPreEmpty | ErrPreLeadingZeroes | ErrPreChars
| ErrBuildEmpty | ErrBuildChars.

(** [VerError.Wrap(err)] for a non-nil [err]. *)
Inductive error : Set :=
| VerError_hex (e : hex.error)
| VerError_semver (e : semver_error).

(* ================================================================== *)
(** * RolloutBytes JSON codec *)

(** The constant [quote]: the double-quote character, byte 0x22. *)
Definition quote : byte := x22.


(** [b[1:len(b)-1]]; the slice expression panics unless [1 <= len(b)-1]. *)
Definition strip_ends (b : list byte) : run (list byte) :=
  if (length b <? 2)%nat then Panics
  else Returns (firstn (length b - 2) (skipn 1 b)).

(** [UnmarshalJSON] on a receiver holding [rb]: the receiver after the
    call and the error returned. *)
Definition UnmarshalJSON (rb : RolloutBytes) (b : list byte)
  : run (RolloutBytes * option error) :=
  match strip_ends b with
  | Panics => Panics
  | Returns text =>
      match hex.Decode rb text with
      | Panics => Panics
      | Returns (rb', _, Some err) => Returns (rb', Some (VerError_hex err))
      | Returns (rb', _, None) => Returns (rb', None)
      end
  end.

(** The JSON string literal with contents [text]. *)
Definition json_string (text : list byte) : list byte :=
  [quote] ++ text ++ [quote].

(** Decoding a text into a fresh cursor, as [json.Unmarshal] does for a
    field of a new value. *)
Definition decode (text : list byte) : run (RolloutBytes * option error) :=
  UnmarshalJSON zeroRolloutBytes (json_string text).

(* ================================================================== *)
(** * The rollout gate *)

Record Rollout : Set := {
  Seed : RolloutBytes;
  Cursor : RolloutBytes
}.

(** [storj.NodeID], a [[32]byte]; the gate only hashes it. *)
Definition NodeID := list byte.

(** [hash.Write] of an HMAC never returns an error, so the panic branch
    of the source is dead and the digest is always compared. *)
Definition isRolloutCandidate (nodeID : NodeID) (rollout : Rollout) : bool :=
  let hash := hmac.Sum (Seed rollout) nodeID in
  bytes_Compare hash (Cursor rollout) <=? 0.

Definition ShouldUpdate (rollout : Rollout) (nodeID : NodeID) : bool :=
  isRolloutCandidate nodeID rollout.

(* ================================================================== *)
(** * strings and strconv, as far as version parsing uses them

    Go strings are byte sequences.  Every separator, prefix and character
    set used below is ASCII, and an ASCII byte never occurs inside a
    multi-byte UTF-8 sequence, so the rune-wise library functions act on
    these inputs as the byte-wise ones here. *)

Module strings.

Fixpoint strip_prefix (p s : list byte) : option (list byte) :=
  match p, s with
  | [], _ => Some s
  | _ :: _, [] => None
  | a :: p', b :: s' => if Byte.eqb a b then strip_prefix p' s' else None
  end.

(** [TrimPrefix(s, prefix)]. *)
Definition TrimPrefix (s p : list byte) : list byte :=
  match strip_prefix p s with
  | Some r => r
  | None => s
  end.

(** The UTF-8 encodings of the runes [unicode.IsSpace] accepts. *)
Definition spaces : list (list byte) :=
  [ [x09]; [x0a]; [x0b]; [x0c]; [x0d]; [x20];
    [xc2; x85]; [xc2; xa0]; [xe1; x9a; x80];
    [xe2; x80; x80]; [xe2; x80; x81]; [xe2; x80; x82]; [xe2; x80; x83];
    [xe2; x80; x84]; [xe2; x80; x85]; [xe2; x80; x86]; [xe2; x80; x87];
    [xe2; x80; x88]; [xe2; x80; x89]; [xe2; x80; x8a];
    [xe2; x80; xa8]; [xe2; x80; xa9]; [xe2; x80; xaf];
    [xe2; x81; x9f]; [xe3; x80; x80] ].

(** [s] without one leading element of [pats], if it has one. *)
Fixpoint drop_one (pats : list (list byte)) (s : list byte)
  : option (list byte) :=
  match pats with
  | [] => None
  | p :: pats' =>
      match strip_prefix p s with
      | Some r => Some r
      | None => drop_one pats' s
      end
  end.

Fixpoint drop_all (fuel : nat) (pats : list (list byte)) (s : list byte)
  : list byte :=
  match fuel with
  | O => s
  | S fuel' =>
      match drop_one pats s with
      | Some r => drop_all fuel' pats r
      | None => s
      end
  end.

(** [TrimSpace(s)]: leading, then trailing white space is removed. *)
Definition TrimSpace (s : list byte) : list byte :=
  let l := drop_all (length s) spaces s in
  rev (drop_all (length l) (map (@rev byte) spaces) (rev l)).

(** [IndexByte(s, c)], which is [IndexRune(s, c)] for an ASCII [c];
    [None] stands for [-1]. *)
Fixpoint IndexByte (s : list byte) (c : byte) : option nat :=
  match s with
  | [] => None
  | b :: s' =>
      if Byte.eqb b c then Some O else option_map S (IndexByte s' c)
  end.

(** [ContainsRune(set, c)] for ASCII sets. *)
Definition ContainsByte (set : list byte) (c : byte) : bool :=
  existsb (Byte.eqb c) set.

(** [ContainsAny(s, chars)]. *)
Definition ContainsAny (s chars : list byte) : bool :=
  existsb (ContainsByte chars) s.

(** [SplitN(s, sep, n)] for a one-byte separator and [n >= 0]: at most
    [n] parts, the last one holding the unsplit rest. *)
Fixpoint SplitN (s : list byte) (sep : byte) (n : nat)
  : list (list byte) :=
  match n with
  | O => []
  | S O => [s]
  | S n' =>
      match IndexByte s sep with
      | None => [s]
      | Some m => firstn m s :: SplitN (skipn (m + 1) s) sep n'
      end
  end.

(** [Split(s, sep)]: every separator splits. *)
Definition Split (s : list byte) (sep : byte) : list (list byte) :=
  SplitN s sep (length s + 1).

(** [Join(parts, sep)]. *)
Fixpoint Join (parts : list (list byte)) (sep : list byte) : list byte :=
  match parts with
  | [] => []
  | [p] => p
  | p :: parts' => p ++ sep ++ Join parts' sep
  end.

End strings.

Module strconv.

Definition is_digit (c : byte) : bool := hex.between "0" c "9".

Definition maxUint64 : N := 2 ^ 64 - 1.

(** The loop of [ParseUint(s, 10, 64)] over a non-empty [s]: a byte that
    is not a decimal digit is a syntax error, a value above
    [maxUint64] a range error, whichever comes first. *)
Fixpoint parse_loop (n : N) (s : list byte) : N + semver_error :=
  match s with
  | [] => inl n
  | c :: s' =>
      if is_digit c then
        let n1 := (n * 10 + Z.to_N (byte_val c - byte_val "0"))%N in
        if (maxUint64 <? n1)%N then inr ErrRange else parse_loop n1 s'
      else inr ErrSyntax
  end.

(** The value of a digit string read after [a], without the range
    check. *)
Definition dval (a : N) (s : list byte) : N :=
  fold_left (fun n c => (n * 10 + Z.to_N (byte_val c - byte_val "0"))%N) s a.

Definition ParseUint (s : list byte) : N + semver_error :=
  match s with
  | [] => inr ErrSyntax
  | _ :: _ => parse_loop 0 s
  end.

Definition digit (d : N) : byte := byte_of_Z (byte_val "0" + Z.of_N d).

(** Decimal digits of [n], least significant produced first and put in
    front of [acc]. *)
Fixpoint format_loop (fuel : nat) (n : N) (acc : list byte) : list byte :=
  match fuel with
  | O => acc
  | S fuel' =>
      let acc' := digit (n mod 10) :: acc in
      if (n / 10 =? 0)%N then acc' else format_loop fuel' (n / 10) acc'
  end.

(** [FormatUint(n, 10)], also what [%d] prints for an unsigned value. *)
Definition FormatUint (n : N) : list byte :=
  format_loop (S (N.to_nat (N.log2 n))) n [].

End strconv.

(* ================================================================== *)
(** * github.com/blang/semver (v3.5.1) *)

Module semver.

Definition numbers : list byte := str "0123456789".
Definition alphas : list byte :=
  str "abcdefghijklmnopqrstuvwxyzABCDEFGHIJKLMNOPQRSTUVWXYZ-".
Definition alphanum : list byte := alphas ++ numbers.

Record PRVersion : Set := {
  VersionStr : list byte;
  VersionNum : N;
  IsNum : bool
}.

Record Version : Set := {
  Major : N;
  Minor : N;
  Patch : N;
  Pre : list PRVersion;
  Build : list (list byte)
}.

(** The zero value [Version{}]. *)
Definition zero : Version :=
  {| Major := 0; Minor := 0; Patch := 0; Pre := []; Build := [] |}.

Definition containsOnly (s set : list byte) : bool :=
  forallb (strings.ContainsByte set) s.

Definition hasLeadingZeroes (s : list byte) : bool :=
  match s with
  | c :: _ :: _ => Byte.eqb c "0"
  | _ => false
  end.

Definition NewPRVersion (s : list byte) : PRVersion + semver_error :=
  match s with
  | [] => inr ErrPreEmpty
  | _ :: _ =>
      if containsOnly s numbers then
        if hasLeadingZeroes s then inr ErrPreLeadingZeroes
        else
          match strconv.ParseUint s with
          | inr e => inr e
          | inl num =>
              inl {| VersionStr := []; VersionNum := num; IsNum := true |}
          end
      else if containsOnly s alphanum then
        inl {| VersionStr := s; VersionNum := 0; IsNum := false |}
      else inr ErrPreChars
  end.

(** [strings] comparison [a > b]. *)
Definition string_gt (a b : list byte) : bool := 0 <? bytes_Compare a b.

Definition string_eq (a b : list byte) : bool := bytes_Compare a b =? 0.

Definition PRVersion_Compare (v o : PRVersion) : Z :=
  if IsNum v && negb (IsNum o) then -1
  else if negb (IsNum v) && IsNum o then 1
  else if IsNum v && IsNum o then
    if (VersionNum v =? VersionNum o)%N then 0
    else if (VersionNum o <? VersionNum v)%N then 1
    else -1
  else
    if string_eq (VersionStr v) (VersionStr o) then 0
    else if string_gt (VersionStr v) (VersionStr o) then 1
    else -1.

Definition PRVersion_String (v : PRVersion) : list byte :=
  if IsNum v then strconv.FormatUint (VersionNum v) else VersionStr v.

(** The loop of [Compare] over the common prefix of the prerelease
    lists, and the comparison of their lengths after it. *)
Fixpoint Compare_pre (vp op : list PRVersion) : Z :=
  match vp, op with
  | [], [] => 0
  | [], _ :: _ => -1
  | _ :: _, [] => 1
  | v :: vp', o :: op' =>
      let comp := PRVersion_Compare v o in
      if comp =? 0 then Compare_pre vp' op'
      else if comp =? 1 then 1
      else -1
  end.

Definition cmpN (a b : N) : Z := if (b <? a)%N then 1 else -1.

Definition Compare (v o : Version) : Z :=
  if negb (Major v =? Major o)%N then cmpN (Major v) (Major o)
  else if negb (Minor v =? Minor o)%N then cmpN (Minor v) (Minor o)
  else if negb (Patch v =? Patch o)%N then cmpN (Patch v) (Patch o)
  else
    match Pre v, Pre o with
    | [], [] => 0
    | [], _ :: _ => 1
    | _ :: _, [] => -1
    | _ :: _, _ :: _ => Compare_pre (Pre v) (Pre o)
    end.

(** [for _, x := range xs] with an early return on the first error. *)
Fixpoint collect {A : Type} (f : list byte -> A + semver_error)
         (xs : list (list byte)) : list A + semver_error :=
  match xs with
  | [] => inl []
  | x :: xs' =>
      match f x with
      | inr e => inr e
      | inl a =>
          match collect f xs' with
          | inr e => inr e
          | inl l => inl (a :: l)
          end
      end
  end.

Definition check_build (s : list byte) : list byte + semver_error :=
  match s with
  | [] => inr ErrBuildEmpty
  | _ :: _ => if containsOnly s alphanum then inl s else inr ErrBuildChars
  end.

(** One of the three numeric components. *)
Definition number (s : list byte) (chars zeroes : semver_error)
  : N + semver_error :=
  if negb (containsOnly s numbers) then inr chars
  else if hasLeadingZeroes s then inr zeroes
  else strconv.ParseUint s.

Definition Parse (s : list byte) : Version + semver_error :=
  match s with
  | [] => inr ErrEmpty
  | _ :: _ =>
      match strings.SplitN s "." 3 with
      | [p0; p1; p2] =>
          match number p0 ErrMajorChars ErrMajorLeadingZeroes with
          | inr e => inr e
          | inl major =>
          match number p1 ErrMinorChars ErrMinorLeadingZeroes with
          | inr e => inr e
          | inl minor =>
              let patchStr := p2 in
              let '(build, patchStr) :=
                match strings.IndexByte patchStr "+" with
                | Some buildIndex =>
                    (strings.Split (skipn (buildIndex + 1) patchStr) ".",
                     firstn buildIndex patchStr)
                | None => ([], patchStr)
                end in
              let '(prerelease, patchStr) :=
                match strings.IndexByte patchStr "-" with
                | Some preIndex =>
                    (strings.Split (skipn (preIndex + 1) patchStr) ".",
                     firstn preIndex patchStr)
                | None => ([], patchStr)
                end in
              match number patchStr ErrPatchChars ErrPatchLeadingZeroes with
              | inr e => inr e
              | inl patch =>
              match collect NewPRVersion prerelease with
              | inr e => inr e
              | inl pre =>
              match collect check_build build with
              | inr e => inr e
              | inl bld =>
                  inl {| Major := major; Minor := minor; Patch := patch;
                         Pre := pre; Build := bld |}
              end end end
          end end
      | _ => inr ErrNoElements
      end
  end.

Definition ParseTolerant (s : list byte) : Version + semver_error :=
  let s := strings.TrimSpace s in
  let s := strings.TrimPrefix s (str "v") in
  let parts := strings.SplitN s "." 3 in
  if (length parts <? 3)%nat then
    if strings.ContainsAny (last parts []) (str "+-")
    then inr ErrShortVersionMeta
    else
      let parts := parts ++ repeat (str "0") (3 - length parts) in
      Parse (strings.Join parts (str "."))
  else Parse s.

End semver.

(* ================================================================== *)
(** * SemVer *)

(** [type SemVer struct { semver.Version }]: the embedded version is the
    only field. *)
Definition SemVer : Set := semver.Version.

(** [NewSemVer]: the parsed version and a nil error, or the zero value
    and the wrapped error. *)
Definition NewSemVer (v : list byte) : SemVer * option error :=
  match semver.ParseTolerant v with
  | inr err => (semver.zero, Some (VerError_semver err))
  | inl ver => (ver, None)
  end.

(** The method [Compare] of [SemVer]. *)
Definition Compare (sem version : SemVer) : Z := semver.Compare sem version.

(** The method [String] of [SemVer]: every prerelease identifier is appended after a
    hyphen; build metadata is not printed. *)
Definition SemVer_String (sem : SemVer) : list byte :=
  let base := str "v" ++ strconv.FormatUint (semver.Major sem)
              ++ str "." ++ strconv.FormatUint (semver.Minor sem)
              ++ str "." ++ strconv.FormatUint (semver.Patch sem) in
  if (0 <? length (semver.Pre sem))%nat then
    let build :=
      fold_left (fun build val =>
                   build ++ str "-" ++ semver.PRVersion_String val)
                (semver.Pre sem) [] in
    base ++ build
  else base.

(* ================================================================== *)
(** * The update decision *)

(** [type Version struct { Version string; URL string }] *)
Record Version : Set := {
  Version_ : list byte;
  URL : list byte
}.

(** The zero value [Version{}]. *)
Definition Version_zero : Version := {| Version_ := []; URL := [] |}.

Record Process : Set := {
  Minimum : Version;
  Suggested : Version;
  Rollout_ : Rollout
}.

(** The method [SemVer] of [Version]. *)
Definition Version_SemVer (ver : Version) : SemVer * option error :=
  NewSemVer (Version_ ver).

Definition reason_up_to_date : list byte := str "Version is up to date".
Definition reason_below_minimum : list byte :=
  str "Version is below minimum allowed".
Definition reason_candidate : list byte :=
  str "New version is being rolled out and this node is a candidate".
Definition reason_pending : list byte :=
  str "New version is being rolled out but hasn't made it to this node yet".

Definition ShouldUpdateVersion
           (currentVersion : SemVer) (nodeID : NodeID) (requested : Process)
  : Version * list byte * option error :=
  match Version_SemVer (Suggested requested) with
  | (_, Some err) => (Version_zero, [], Some err)
  | (suggestedVersion, None) =>
      if 0 <=? Compare currentVersion suggestedVersion
      then (Version_zero, reason_up_to_date, None)
      else
        match Version_SemVer (Minimum requested) with
        | (_, Some err) => (Version_zero, [], Some err)
        | (minimumVersion, None) =>
            if Compare currentVersion minimumVersion <? 0
            then (Minimum requested, reason_below_minimum, None)
            else
              let rollout := isRolloutCandidate nodeID (Rollout_ requested) in
              if rollout
              then (Suggested requested, reason_candidate, None)
              else (Version_zero, reason_pending, None)
        end
  end.

(* ================================================================== *)
(** * Well-formed versions *)

(** A prerelease identifier as [NewPRVersion] builds it: a number within
    uint64 with no text, or a non-empty text over [alphanum] that is not
    all digits, with number zero. *)
Definition valid_PRVersion (p : semver.PRVersion) : bool :=
  if semver.IsNum p then
    (semver.VersionNum p <=? strconv.maxUint64)%N
    && (length (semver.VersionStr p) =? 0)%nat
  else
    (semver.VersionNum p =? 0)%N
    && (0 <? length (semver.VersionStr p))%nat
    && semver.containsOnly (semver.VersionStr p) semver.alphanum
    && negb (semver.containsOnly (semver.VersionStr p) semver.numbers).

(** A version whose numbers are within uint64 and whose prerelease
    identifiers are well formed. *)
Definition valid_SemVer (v : SemVer) : bool :=
  (semver.Major v <=? strconv.maxUint64)%N
  && (semver.Minor v <=? strconv.maxUint64)%N
  && (semver.Patch v <=? strconv.maxUint64)%N
  && forallb valid_PRVersion (semver.Pre v).

(** [v] with its build metadata removed. *)
Definition without_build (v : SemVer) : SemVer :=
  {| semver.Major := semver.Major v; semver.Minor := semver.Minor v;
     semver.Patch := semver.Patch v; semver.Pre := semver.Pre v;
     semver.Build := [] |}.

(* ================================================================== *)
(** * The specification's formulas for the cursor of a percentage *)

(** [floor((MAX * k) / 1_000_000)] for a percentage scaled by 10000. *)
Definition spec_cursor_precise (k : Z) : Z := (MAX * k) / 1000000.

(** [floor((MAX * pct) / 100)]. *)
Definition spec_cursor_legacy (pct : Z) : Z := (MAX * pct) / 100.

(* ================================================================== *)
(** * The rest of the version package *)

(** The method [IsZero] of [Version]: [reflect] finds the zero value of
    the [Version] string, the empty string; the URL is not looked at. *)
Definition Version_IsZero (ver : Version) : bool :=
  match Version_ ver with
  | [] => true
  | _ :: _ => false
  end.

(** The upper-case form of a hex digit: [a]..[f] become [A]..[F], every
    other byte is kept.  Used to state that decoding ignores case. *)
Definition hex_upper (c : byte) : byte :=
  if hex.between "a" c "f" then byte_of_Z (byte_val c - 32) else c.

(** [type OldSemVer struct { Major, Minor, Patch int64 }]; the fields are
    prefixed here, the names being those of [semver.Version]. *)
Record OldSemVer : Set := {
  Old_Major : Z;
  Old_Minor : Z;
  Old_Patch : Z
}.

(** The zero value [OldSemVer{}]. *)
Definition OldSemVer_zero : OldSemVer :=
  {| Old_Major := 0; Old_Minor := 0; Old_Patch := 0 |}.

(** Go's conversion [int64(n)] of a [uint64]: the same 64 bits, read in
    two's complement. *)
Definition int64_of_uint64 (n : N) : Z :=
  let z := Z.of_N n mod 2 ^ 64 in
  if z <? 2 ^ 63 then z else z - 2 ^ 64.

(** What [%d] prints for an [int64]. *)
Definition FormatInt (z : Z) : list byte :=
  if z <? 0 then "-"%byte :: strconv.FormatUint (Z.to_N (- z))
  else strconv.FormatUint (Z.to_N z).

Definition NewOldSemVer (v : list byte) : OldSemVer * option error :=
  match NewSemVer v with
  | (_, Some err) => (OldSemVer_zero, Some err)
  | (ver, None) =>
      ({| Old_Major := int64_of_uint64 (semver.Major ver);
          Old_Minor := int64_of_uint64 (semver.Minor ver);
          Old_Patch := int64_of_uint64 (semver.Patch ver) |}, None)
  end.

(** The method [String] of [OldSemVer]. *)
Definition OldSemVer_String (old : OldSemVer) : list byte :=
  str "v" ++ FormatInt (Old_Major old)
  ++ str "." ++ FormatInt (Old_Minor old)
  ++ str "." ++ FormatInt (Old_Patch old).

(* ================================================================== *)
(** * The deprecation-file generator (package main) *)

Module tool.

(** [strings.HasPrefix], [strings.HasSuffix] and [strings.Contains]. *)
Definition HasPrefix (s prefix : list byte) : bool :=
  match strings.strip_prefix prefix s with
  | Some _ => true
  | None => false
  end.

Definition HasSuffix (s suffix : list byte) : bool :=
  HasPrefix (rev s) (rev suffix).

Fixpoint Contains (s substr : list byte) : bool :=
  HasPrefix s substr
  || match s with
     | [] => false
     | _ :: s' => Contains s' substr
     end.

Section FS.

(** The file system is read through [os.ReadFile] and [os.ReadDir];
    paths are joined by [filepath.Join]. *)
Variable fs_error : Type.
Variable ReadFile : list byte -> list byte + fs_error.
Variable ReadDir : list byte -> list (list byte) + fs_error.
Variable Join : list byte -> list byte -> list byte.

(** [Must(t, err)]: [t], or a panic when [err] is not nil. *)
Definition Must {T : Type} (r : T + fs_error) : run T :=
  match r with
  | inl t => Returns t
  | inr _ => Panics
  end.

(** The loop of [findPackage] over the lines of the file; running out of
    lines is the final [panic]. *)
Fixpoint findPackage_lines (lines : list (list byte)) : run (list byte) :=
  match lines with
  | [] => Panics
  | line :: rest =>
      if HasPrefix line (str "package") then
        let pkgName :=
          strings.TrimSpace (strings.TrimPrefix line (str "package")) in
        if negb (Contains pkgName (str "_test")) then Returns pkgName
        else findPackage_lines rest
      else findPackage_lines rest
  end.

Definition findPackage (file : list byte) : run (list byte) :=
  match Must (ReadFile file) with
  | Panics => Panics
  | Returns raw => findPackage_lines (strings.Split raw x0a)
  end.

(** The loop of [pickAGoFile] over the names of the directory entries;
    the empty string is returned when no entry is taken. *)
Fixpoint pickAGoFile_entries (path : list byte) (names : list (list byte))
  : list byte :=
  match names with
  | [] => []
  | name :: rest =>
      if HasSuffix name (str ".go") && negb (Contains name (str "_test"))
      then Join path name
      else pickAGoFile_entries path rest
  end.

Definition pickAGoFile (path : list byte) : run (list byte) :=
  match Must (ReadDir path) with
  | Panics => Panics
  | Returns names => Returns (pickAGoFile_entries path names)
  end.

End FS.

End tool.

(* ================================================================== *)
(** * Facts about bytes and big-endian values *)

Lemma byte_val_range (b : byte) : 0 <= byte_val b < 256.
Proof.
  unfold byte_val. pose proof (Byte.to_N_bounded b) as H.
  lia.
Qed.

Lemma byte_val_of_Z (z : Z) : byte_val (byte_of_Z z) = z mod 256.
Proof.
  unfold byte_val, byte_of_Z.
  assert (Hr : 0 <= z mod 256 < 256) by (apply Z.mod_pos_bound; lia).
  destruct (Byte.of_N (Z.to_N (z mod 256))) as [b|] eqn:E.
  - apply Byte.to_of_N in E. rewrite E. lia.
  - exfalso.
    assert (Hle : (Z.to_N (z mod 256) <= 255)%N) by lia.
    pose proof (Byte.to_of_N_option_map (Z.to_N (z mod 256))) as Hm.
    apply N.leb_le in Hle. rewrite Hle, E in Hm. discriminate.
Qed.

Lemma byte_of_Z_val (b : byte) : byte_of_Z (byte_val b) = b.
Proof.
  unfold byte_of_Z. pose proof (byte_val_range b) as Hr.
  rewrite Z.mod_small by exact Hr. unfold byte_val.
  rewrite N2Z.id, Byte.of_to_N. reflexivity.
Qed.

Lemma byte_val_inj (a b : byte) : byte_val a = byte_val b -> a = b.
Proof.
  intros H. rewrite <- (byte_of_Z_val a), <- (byte_of_Z_val b), H. reflexivity.
Qed.

Lemma be_fold_shift (l : list byte) (a : Z) :
  fold_left (fun acc b => acc * 256 + byte_val b) l a
  = a * 256 ^ Z.of_nat (length l) + be_value l.
Proof.
  unfold be_value. revert a.
  induction l as [|b l IH]; intros a.
  - simpl. lia.
  - cbn [fold_left length]. rewrite IH, (IH (0 * 256 + byte_val b)).
    rewrite Nat2Z.inj_succ, Z.pow_succ_r by lia. ring.
Qed.

Lemma be_value_cons (b : byte) (l : list byte) :
  be_value (b :: l) = byte_val b * 256 ^ Z.of_nat (length l) + be_value l.
Proof.
  unfold be_value at 1. cbn [fold_left]. rewrite be_fold_shift. ring.
Qed.

Lemma be_value_range (l : list byte) :
  0 <= be_value l < 256 ^ Z.of_nat (length l).
Proof.
  induction l as [|b l IH].
  - cbn. lia.
  - rewrite be_value_cons. cbn [length].
    rewrite Nat2Z.inj_succ, Z.pow_succ_r by lia.
    pose proof (byte_val_range b). nia.
Qed.

Lemma be_value_repeat_zero (n : nat) : be_value (repeat x00 n) = 0.
Proof.
  induction n as [|n IH]; [reflexivity|].
  cbn [repeat]. rewrite be_value_cons, IH. reflexivity.
Qed.

Lemma be_bytes_length (n : nat) (x : Z) : length (be_bytes n x) = n.
Proof. induction n as [|n IH]; cbn [be_bytes length]; congruence. Qed.

Lemma be_value_be_bytes (n : nat) (x : Z) :
  be_value (be_bytes n x) = x mod 256 ^ Z.of_nat n.
Proof.
  induction n as [|n IH].
  - cbn. rewrite Z.mod_1_r. reflexivity.
  - cbn [be_bytes]. rewrite be_value_cons, be_bytes_length, IH, byte_val_of_Z.
    rewrite Z.shiftr_div_pow2 by lia.
    rewrite Nat2Z.inj_succ, Z.pow_succ_r by lia.
    replace (2 ^ (8 * Z.of_nat n)) with (256 ^ Z.of_nat n)
      by (rewrite Z.pow_mul_r by lia; reflexivity).
    assert (Hp : 0 < 256 ^ Z.of_nat n) by (apply Z.pow_pos_nonneg; lia).
    rewrite (Z.mul_comm 256), Z.rem_mul_r by lia. ring.
Qed.

(** On slices of equal length, [bytes.Compare] is the order of the
    big-endian values. *)
Lemma bytes_Compare_be (a b : list byte) :
  length a = length b ->
  (bytes_Compare a b <= 0 <-> be_value a <= be_value b)
  /\ (bytes_Compare a b = 0 <-> a = b).
Proof.
  revert b. induction a as [|x a IH]; intros [|y b] Hlen; try discriminate.
  - cbn. split; split; intros; (lia || reflexivity).
  - cbn [length] in Hlen. injection Hlen as Hlen.
    destruct (IH b Hlen) as [IHle IHeq].
    cbn [bytes_Compare]. rewrite !be_value_cons, <- Hlen.
    pose proof (be_value_range a) as Ha.
    pose proof (be_value_range b) as Hb. rewrite <- Hlen in Hb.
    pose proof (byte_val_range x). pose proof (byte_val_range y).
    destruct (byte_val x <? byte_val y) eqn:E1.
    + apply Z.ltb_lt in E1. split; split; intros; try nia; try discriminate.
      exfalso. injection H1 as -> _. lia.
    + apply Z.ltb_ge in E1.
      destruct (byte_val y <? byte_val x) eqn:E2.
      * apply Z.ltb_lt in E2. split; split; intros; try nia; try discriminate.
        exfalso. injection H1 as -> _. lia.
      * apply Z.ltb_ge in E2.
        assert (Exy : x = y) by (apply byte_val_inj; lia). subst y.
        split.
        -- rewrite IHle. split; lia.
        -- rewrite IHeq. split; [intros ->; reflexivity|].
           intros Heq. injection Heq as ->. reflexivity.
Qed.

Lemma copy_same_length (dst src : list byte) :
  length src = length dst -> copy dst src = src.
Proof.
  intros H. unfold copy. rewrite <- H, firstn_all, skipn_all2 by lia.
  apply app_nil_r.
Qed.

Lemma copy_nil (dst : list byte) : copy dst [] = dst.
Proof. unfold copy. rewrite firstn_nil. reflexivity. Qed.

(** A value with its top byte set fills all 32 bytes. *)
Lemma big_Bytes_full (x : Z) :
  2 ^ 248 <= x < 2 ^ 256 -> big.Bytes x = be_bytes 32 x.
Proof.
  intros Hx. unfold big.Bytes, big.byte_len.
  rewrite Z.abs_eq by lia.
  destruct (x =? 0) eqn:E; [apply Z.eqb_eq in E; lia|].
  assert (Hlo : 248 <= Z.log2 x).
  { change 248 with (Z.log2 (2 ^ 248)). apply Z.log2_le_mono. lia. }
  assert (Hhi : Z.log2 x < 256) by (apply Z.log2_lt_pow2; lia).
  assert (Hq : Z.log2 x / 8 = 31).
  { symmetry. apply (Z.div_unique _ 8 31 (Z.log2 x - 248)); lia. }
  rewrite Hq. reflexivity.
Qed.

Lemma big_Bytes_zero : big.Bytes 0 = [].
Proof. reflexivity. Qed.

Lemma maxBytes_eq : maxBytes = repeat xff 32.
Proof. reflexivity. Qed.

Lemma maxInt_eq : big.SetBytes maxBytes = MAX.
Proof. reflexivity. Qed.

(** Writing a value with its top byte set into a fresh cursor. *)
Lemma cursor_of_full (x : Z) :
  2 ^ 248 <= x < 2 ^ 256 ->
  copy zeroRolloutBytes (big.Bytes x) = be_bytes 32 x
  /\ be_value (copy zeroRolloutBytes (big.Bytes x)) = x.
Proof.
  intros Hx. rewrite big_Bytes_full by exact Hx.
  rewrite copy_same_length by (rewrite be_bytes_length; reflexivity).
  split; [reflexivity|].
  rewrite be_value_be_bytes. apply Z.mod_small.
  change (256 ^ Z.of_nat 32) with (2 ^ 256). lia.
Qed.

(* ================================================================== *)
(** * The percentage mappers *)

Lemma big_Div_pos (x y : Z) : 0 < y -> big.Div x y = x / y.
Proof.
  intros Hy. unfold big.Div.
  rewrite Z.sgn_pos, Z.abs_eq by lia. lia.
Qed.

(** What the legacy mapper computes before the bytes are taken. *)
Lemma PercentageToCursor_unfold (pct : Z) :
  PercentageToCursor pct
  = copy zeroRolloutBytes (big.Bytes (MAX * pct / 100)).
Proof.
  unfold PercentageToCursor. rewrite maxInt_eq.
  unfold big.Mul, big.NewInt. rewrite big_Div_pos by lia. reflexivity.
Qed.

(** What the precise mapper computes before the bytes are taken. *)
Lemma PercentageToCursorF_unfold (pct : float) :
  PercentageToCursorF pct
  = copy zeroRolloutBytes (big.Bytes (MAX / 1000000 * scaled pct)).
Proof.
  unfold PercentageToCursorF. rewrite maxInt_eq.
  unfold big.Mul, big.NewInt. rewrite big_Div_pos by lia. reflexivity.
Qed.

Lemma legacy_in_range (pct : Z) :
  1 <= pct <= 100 -> 2 ^ 248 <= MAX * pct / 100 < 2 ^ 256.
Proof.
  intros Hp. split.
  - apply Z.div_le_lower_bound; [lia|]. unfold MAX. lia.
  - apply Z.div_lt_upper_bound; [lia|]. unfold MAX. lia.
Qed.

Lemma precise_in_range (k : Z) :
  3907 <= k <= 1000000 -> 2 ^ 248 <= MAX / 1000000 * k < 2 ^ 256.
Proof.
  intros Hk.
  assert (E : MAX / 1000000 = (MAX - 639935) / 1000000 )
    by (vm_compute; reflexivity).
  assert (Hq : MAX / 1000000 * 1000000 = MAX - 639935)
    by (vm_compute; reflexivity).
  assert (Hlo : 2 ^ 248 <= MAX / 1000000 * 3907)
    by (vm_compute; discriminate).
  assert (Hpos : 0 < MAX / 1000000) by (vm_compute; reflexivity).
  split.
  - eapply Z.le_trans; [exact Hlo|]. apply Z.mul_le_mono_nonneg_l; lia.
  - apply Z.le_lt_trans with (MAX / 1000000 * 1000000).
    + apply Z.mul_le_mono_nonneg_l; lia.
    + rewrite Hq. unfold MAX. lia.
Qed.

(** The value of the legacy cursor on its documented range. *)
Lemma PercentageToCursor_value (pct : Z) :
  0 <= pct <= 100 ->
  length (PercentageToCursor pct) = 32%nat
  /\ be_value (PercentageToCursor pct) = MAX * pct / 100.
Proof.
  intros Hp. rewrite PercentageToCursor_unfold.
  destruct (Z.eq_dec pct 0) as [-> | Hnz].
  - split; reflexivity.
  - destruct (cursor_of_full (MAX * pct / 100)) as [Hb Hv];
      [apply legacy_in_range; lia|].
    split; [|exact Hv]. rewrite Hb. apply be_bytes_length.
Qed.

(** The value of the precise cursor once the top byte is set. *)
Lemma PercentageToCursorF_value (pct : float) :
  3907 <= scaled pct <= 1000000 ->
  length (PercentageToCursorF pct) = 32%nat
  /\ be_value (PercentageToCursorF pct) = MAX / 1000000 * scaled pct.
Proof.
  intros Hk. rewrite PercentageToCursorF_unfold.
  destruct (cursor_of_full (MAX / 1000000 * scaled pct)) as [Hb Hv];
    [apply precise_in_range; exact Hk|].
  split; [|exact Hv]. rewrite Hb. apply be_bytes_length.
Qed.

Lemma PercentageToCursorF_zero (pct : float) :
  scaled pct = 0 -> PercentageToCursorF pct = zeroRolloutBytes.
Proof.
  intros Hk. rewrite PercentageToCursorF_unfold, Hk, Z.mul_0_r. reflexivity.
Qed.

(** C8.  For every integer percentage in [0,100] the legacy mapper
    returns 32 bytes whose big-endian value is [floor(MAX * pct / 100)];
    [PercentageToCursor(100)] is the all-0xFF cursor and
    [PercentageToCursor(0)] the all-zero cursor. *)
Theorem PercentageToCursor_legacy_formula (pct : Z) :
  0 <= pct <= 100 ->
  length (PercentageToCursor pct) = 32%nat
  /\ be_value (PercentageToCursor pct) = spec_cursor_legacy pct
  /\ PercentageToCursor 100 = repeat xff 32
  /\ PercentageToCursor 0 = repeat x00 32.
Proof.
  intros Hp. destruct (PercentageToCursor_value pct Hp) as [Hl Hv].
  repeat split; try assumption; vm_compute; reflexivity.
Qed.

Lemma PercentageToCursor_legacy_formula_witness :
  0 <= 25 <= 100
  /\ be_value (PercentageToCursor 25) = spec_cursor_legacy 25.
Proof.
  assert (H : 0 <= 25 <= 100) by lia.
  split; [exact H|].
  exact (proj1 (proj2 (PercentageToCursor_legacy_formula 25 H))).
Defined.

(** C5, refuted as stated: at [pct = -1] neither mapper returns the
    all-zero cursor; [big.Int.Bytes] drops the sign, so the cursor is that
    of the absolute value. *)
Lemma nonpositive_percentage_counterexample :
  -1 <= 0
  /\ PrimFloat.leb (-1)%float 0%float = true
  /\ PercentageToCursor (-1) <> zeroRolloutBytes
  /\ PercentageToCursorF (-1)%float <> zeroRolloutBytes.
Proof.
  split; [lia|]. split; [vm_compute; reflexivity|].
  split; intros H; vm_compute in H; discriminate H.
Qed.

(** C5, amended.  The legacy mapper returns the all-zero cursor at
    [pct = 0], and the precise mapper returns it for every [pct] whose
    scaled value [int64(pct*10000)] is zero, which includes [0] and the
    negative percentages that truncate to zero. *)
Theorem zero_percentage_zero_cursor (pct : float) :
  scaled pct = 0 ->
  PercentageToCursorF pct = zeroRolloutBytes
  /\ PercentageToCursor 0 = zeroRolloutBytes.
Proof.
  intros Hk. split; [apply PercentageToCursorF_zero; exact Hk|].
  vm_compute. reflexivity.
Qed.

Lemma zero_percentage_zero_cursor_witness :
  scaled (-0.000030517578125)%float = 0
  /\ PercentageToCursorF (-0.000030517578125)%float = zeroRolloutBytes
  /\ PercentageToCursorF 0%float = zeroRolloutBytes.
Proof.
  split; [vm_compute; reflexivity|]. split.
  - apply (zero_percentage_zero_cursor (-0.000030517578125)%float).
    vm_compute. reflexivity.
  - apply (zero_percentage_zero_cursor 0%float). vm_compute. reflexivity.
Defined.




(** Below 0.3907 percent the product has fewer than 32 bytes and [copy]
    writes it at the front of the cursor, which multiplies it by 256 or
    65536: the cursor of 2^-10 percent is above the cursor of 2^-9
    percent. *)
Example PercentageToCursorF_short_product :
  scaled 0.0009765625%float = 9
  /\ scaled 0.001953125%float = 19
  /\ be_value (PercentageToCursorF 0.0009765625%float)
     = MAX / 1000000 * 9 * 2 ^ 16
  /\ be_value (PercentageToCursorF 0.001953125%float)
     = MAX / 1000000 * 19 * 2 ^ 8
  /\ be_value (PercentageToCursorF 0.001953125%float)
     < be_value (PercentageToCursorF 0.0009765625%float).
Proof. repeat split; vm_compute; reflexivity. Qed.

(** C2, refuted as stated.  At [pct = 100] the scaled percentage is
    exactly 1000000 and the stated formula gives [MAX], as the legacy
    mapper does, but the code divides [MAX] by 1000000 before it
    multiplies and returns [MAX - 639935].  At [pct = 2^-14] the product
    [pct*10000] is above one half, so it rounds to 1, but the conversion
    to int64 discards the fraction and the cursor is zero. *)
Lemma precise_formula_counterexample :
  scaled 100%float = 1000000
  /\ be_value (PercentageToCursorF 100%float) = MAX - 639935
  /\ spec_cursor_precise 1000000 = MAX
  /\ be_value (PercentageToCursorF 100%float) <> spec_cursor_precise 1000000
  /\ be_value (PercentageToCursor 100) = MAX
  /\ PrimFloat.ltb 0.5%float
                   (PrimFloat.mul 0.00006103515625%float 10000%float) = true
  /\ be_value (PercentageToCursorF 0.00006103515625%float) = 0
  /\ spec_cursor_precise 1 <> 0.
Proof.
  split; [vm_compute; reflexivity|]. split; [vm_compute; reflexivity|].
  split; [vm_compute; reflexivity|].
  split; [intros H; vm_compute in H; discriminate H|].
  split; [vm_compute; reflexivity|]. split; [vm_compute; reflexivity|].
  split; [vm_compute; reflexivity|].
  intros H; vm_compute in H; discriminate H.
Qed.

(** C2, amended.  With [k = int64(pct*10000)], the fraction discarded,
    and [k] either 0 or in [3907, 1000000], the precise mapper returns 32
    bytes whose big-endian value is [floor(MAX / 1000000) * k]: the
    division comes first, so the value is at most
    [floor(MAX * k / 1000000)] and less than [k] below it. *)
Theorem PercentageToCursorF_formula (pct : float) :
  scaled pct = 0 \/ 3907 <= scaled pct <= 1000000 ->
  length (PercentageToCursorF pct) = 32%nat
  /\ be_value (PercentageToCursorF pct) = MAX / 1000000 * scaled pct
  /\ spec_cursor_precise (scaled pct) - scaled pct
     <= be_value (PercentageToCursorF pct)
     <= spec_cursor_precise (scaled pct).
Proof.
  intros Hk.
  assert (Hv : length (PercentageToCursorF pct) = 32%nat
               /\ be_value (PercentageToCursorF pct)
                  = MAX / 1000000 * scaled pct).
  { destruct Hk as [Hz | Hk].
    - rewrite (PercentageToCursorF_zero pct Hz), Hz. split; reflexivity.
    - apply PercentageToCursorF_value. exact Hk. }
  destruct Hv as [Hl Hv]. split; [exact Hl|]. split; [exact Hv|].
  rewrite Hv. unfold spec_cursor_precise.
  assert (Hk0 : 0 <= scaled pct) by lia.
  assert (HM : MAX = MAX / 1000000 * 1000000 + 639935)
    by (vm_compute; reflexivity).
  set (q := MAX / 1000000) in *. set (k := scaled pct) in *.
  assert (E : MAX * k = q * k * 1000000 + 639935 * k)
    by (rewrite HM; ring).
  rewrite E. rewrite Z.div_add_l by lia.
  assert (H0 : 0 <= 639935 * k / 1000000) by (apply Z.div_pos; lia).
  assert (H1 : 639935 * k / 1000000 <= k)
    by (apply Z.div_le_upper_bound; lia).
  lia.
Qed.

Lemma PercentageToCursorF_formula_witness :
  be_value (PercentageToCursorF 12.5%float) = MAX / 1000000 * 125000.
Proof.
  assert (E : scaled 12.5%float = 125000) by (vm_compute; reflexivity).
  assert (Hk : scaled 12.5%float = 0 \/ 3907 <= scaled 12.5%float <= 1000000)
    by (right; rewrite E; lia).
  pose proof (proj1 (proj2 (PercentageToCursorF_formula 12.5%float Hk))) as H.
  rewrite E in H. exact H.
Defined.

(* ================================================================== *)
(** * The rollout gate *)

Lemma sha256_Sum256_length (msg : list byte) :
  length (sha256.Sum256 msg) = 32%nat.
Proof.
  unfold sha256.Sum256, sha256.digest.
  rewrite !length_app, !be_bytes_length. reflexivity.
Qed.

Lemma hmac_Sum_length (key msg : list byte) :
  length (hmac.Sum key msg) = 32%nat.
Proof. unfold hmac.Sum. apply sha256_Sum256_length. Qed.

(** C7.  A node is a rollout candidate exactly when its HMAC-SHA256
    digest, keyed by the seed and read as a big-endian 256-bit integer,
    is at most the cursor; the bound is inclusive, and [ShouldUpdate] is
    the same test. *)
Theorem isRolloutCandidate_iff (nodeID : NodeID) (rollout : Rollout) :
  wf_RolloutBytes (Cursor rollout) ->
  (isRolloutCandidate nodeID rollout = true
   <-> be_value (hmac.Sum (Seed rollout) nodeID)
       <= be_value (Cursor rollout))
  /\ ShouldUpdate rollout nodeID = isRolloutCandidate nodeID rollout
  /\ (hmac.Sum (Seed rollout) nodeID = Cursor rollout ->
      isRolloutCandidate nodeID rollout = true).
Proof.
  intros Hwf. unfold isRolloutCandidate.
  assert (Hlen : length (hmac.Sum (Seed rollout) nodeID)
                 = length (Cursor rollout))
    by (rewrite hmac_Sum_length; symmetry; exact Hwf).
  destruct (bytes_Compare_be _ _ Hlen) as [Hle _].
  assert (Hiff : (bytes_Compare (hmac.Sum (Seed rollout) nodeID)
                                (Cursor rollout) <=? 0) = true
                 <-> be_value (hmac.Sum (Seed rollout) nodeID)
                     <= be_value (Cursor rollout))
    by (rewrite Z.leb_le; exact Hle).
  split; [exact Hiff|]. split; [reflexivity|].
  intros Heq. apply Hiff. rewrite Heq. lia.
Qed.

Lemma isRolloutCandidate_iff_witness :
  let r := {| Seed := zeroRolloutBytes; Cursor := PercentageToCursor 50 |} in
  isRolloutCandidate (repeat x01 32) r = true
  <-> be_value (hmac.Sum (Seed r) (repeat x01 32)) <= be_value (Cursor r).
Proof.
  intros r.
  assert (Hwf : wf_RolloutBytes (Cursor r)) by (vm_compute; reflexivity).
  exact (proj1 (isRolloutCandidate_iff (repeat x01 32) r Hwf)).
Defined.

(** The gate on a concrete identity: with the zero seed the digest of
    the identity 0x0101...01 starts with byte 0x80, so the node is outside
    a 50 percent rollout and inside a 75 percent one; a cursor equal to
    the digest admits it. *)
Example isRolloutCandidate_samples :
  let id := repeat x01 32 in
  isRolloutCandidate id {| Seed := zeroRolloutBytes;
                           Cursor := PercentageToCursor 50 |} = false
  /\ isRolloutCandidate id {| Seed := zeroRolloutBytes;
                              Cursor := PercentageToCursor 75 |} = true
  /\ isRolloutCandidate id {| Seed := zeroRolloutBytes;
                              Cursor := hmac.Sum zeroRolloutBytes id |}
     = true.
Proof.
  intros id. split; [vm_compute; reflexivity|].
  split; vm_compute; reflexivity.
Qed.

(* ================================================================== *)
(** * The hex codec *)

Lemma pair_ind (P : list byte -> Prop) :
  P [] -> (forall x, P [x]) -> (forall x y l, P l -> P (x :: y :: l)) ->
  forall l, P l.
Proof.
  intros H0 H1 H2 l.
  assert (H : P l /\ forall x, P (x :: l)).
  { induction l as [|y l [IHl IHc]]; split; auto. }
  exact (proj1 H).
Qed.

Lemma store_length (a : list byte) (i : nat) (v : byte) :
  length (store a i v) = length a.
Proof.
  revert i. induction a as [|x a IH]; intros [|i]; cbn; auto.
Qed.

Lemma store_firstn (a : list byte) (i : nat) (v : byte) :
  (i < length a)%nat -> firstn (S i) (store a i v) = firstn i a ++ [v].
Proof.
  revert i. induction a as [|x a IH]; intros [|i] Hi; cbn in *; try lia.
  - reflexivity.
  - f_equal. apply IH. lia.
Qed.

Lemma store_skipn (a : list byte) (i n : nat) (v : byte) :
  skipn (S i + n) (store a i v) = skipn (S i + n) a.
Proof.
  revert i. induction a as [|x a IH]; intros [|i]; cbn; auto.
  apply (IH i).
Qed.

(** Valid hex that fits is written over the bytes of [dst] from [i]. *)
Lemma Decode_from_valid (src : list byte) :
  forall (bs dst : list byte) (i : nat),
    hex.denotes src = Some bs ->
    (i + length bs <= length dst)%nat ->
    hex.Decode_from dst i src
    = Returns (firstn i dst ++ bs ++ skipn (i + length bs) dst,
               (i + length bs)%nat, None).
Proof.
  induction src as [| x | x y src IH] using pair_ind; intros bs dst i Hd Hlen.
  - injection Hd as <-. cbn [hex.Decode_from length app].
    rewrite Nat.add_0_r, firstn_skipn. reflexivity.
  - discriminate Hd.
  - cbn [hex.denotes] in Hd. cbn [hex.Decode_from].
    destruct (hex.fromHexChar x) as [a|]; [|discriminate Hd].
    destruct (hex.fromHexChar y) as [b|]; [|discriminate Hd].
    destruct (hex.denotes src) as [bs'|]; [|discriminate Hd].
    injection Hd as <-. cbn [length] in Hlen.
    assert (Hi : (i <? length dst)%nat = true) by (apply Nat.ltb_lt; lia).
    rewrite Hi.
    rewrite (IH bs') by (rewrite ?store_length; (reflexivity || lia)).
    rewrite store_firstn by lia. rewrite store_skipn.
    cbn [length]. rewrite <- app_assoc. cbn [app].
    replace (S i + length bs')%nat with (i + S (length bs'))%nat by lia.
    reflexivity.
Qed.



Lemma strip_ends_json_string (text : list byte) :
  strip_ends (json_string text) = Returns text.
Proof.
  unfold strip_ends, json_string.
  assert (Hl : length ([quote] ++ text ++ [quote]) = S (S (length text)))
    by (cbn [app length]; rewrite length_app; cbn; lia).
  rewrite Hl. cbn [Nat.ltb Nat.leb app skipn Nat.sub].
  rewrite Nat.sub_0_r.
  rewrite firstn_app, firstn_all, Nat.sub_diag. cbn.
  rewrite app_nil_r. reflexivity.
Qed.

(** [UnmarshalJSON] on a JSON string whose contents are valid hex of at
    most 32 bytes. *)
Lemma UnmarshalJSON_valid (rb : RolloutBytes) (text bs : list byte) :
  hex.denotes text = Some bs -> (length bs <= length rb)%nat ->
  UnmarshalJSON rb (json_string text) = Returns (copy rb bs, None).
Proof.
  intros Hd Hlen. unfold UnmarshalJSON, hex.Decode.
  rewrite strip_ends_json_string.
  rewrite (Decode_from_valid text bs rb 0 Hd) by (cbn; lia).
  cbn [firstn app Nat.add]. unfold copy.
  rewrite firstn_all2 by lia. reflexivity.
Qed.


(** Each byte is encoded as two digits that decode to it. *)
Lemma Encode_byte (v : byte) (rest : list byte) :
  hex.denotes (hex.Encode [v] ++ rest)
  = option_map (cons v) (hex.denotes rest).
Proof.
  destruct v; cbn; destruct (hex.denotes rest); reflexivity.
Qed.

Lemma denotes_Encode (bs : list byte) : hex.denotes (hex.Encode bs) = Some bs.
Proof.
  induction bs as [|v bs IH]; [reflexivity|].
  change (hex.Encode (v :: bs)) with (hex.Encode [v] ++ hex.Encode bs).
  rewrite Encode_byte, IH. reflexivity.
Qed.


Lemma skipn_zeros (n m : nat) :
  skipn n (repeat x00 m) = repeat x00 (m - n).
Proof.
  revert m. induction n as [|n IH]; intros [|m]; cbn; auto.
Qed.





(** Beyond 64 hex digits the thirty-third byte is written past the end of
    the array and the call panics instead of returning an error; a
    non-empty receiver keeps its bytes when the text is empty. *)
Example UnmarshalJSON_edges :
  decode (hex.Encode (repeat xab 33)) = Panics
  /\ UnmarshalJSON (repeat xff 32) (json_string [])
     = Returns (repeat xff 32, None)
  /\ UnmarshalJSON zeroRolloutBytes (str "1") = Panics.
Proof. repeat split; vm_compute; reflexivity. Qed.



(* ================================================================== *)
(** * Decimal numbers: printing and reading back *)

Module strconv_facts.

Import strconv.

Lemma lt_10_cases (d : N) :
  (d < 10)%N ->
  d = 0%N \/ d = 1%N \/ d = 2%N \/ d = 3%N \/ d = 4%N
  \/ d = 5%N \/ d = 6%N \/ d = 7%N \/ d = 8%N \/ d = 9%N.
Proof. lia. Qed.

Lemma digit_spec (d : N) :
  (d < 10)%N ->
  is_digit (digit d) = true
  /\ Z.to_N (byte_val (digit d) - byte_val "0") = d
  /\ (d <> 0%N -> Byte.eqb (digit d) "0" = false).
Proof.
  intros Hd.
  destruct (lt_10_cases d Hd)
    as [-> | [-> | [-> | [-> | [-> | [-> | [-> | [-> | [-> | ->]]]]]]]]];
    (split; [reflexivity | split; [reflexivity | intros H; try reflexivity;
                                                 contradiction]]).
Qed.

Lemma dval_ge (s : list byte) (a : N) : (a <= dval a s)%N.
Proof.
  revert a. induction s as [|c s IH]; intros a; [apply N.le_refl|].
  unfold dval in *. cbn [fold_left].
  eapply N.le_trans; [|apply IH]. lia.
Qed.

(** Reading digits that stay in range never fails. *)
Lemma parse_loop_dval (s : list byte) (a : N) :
  forallb is_digit s = true -> (dval a s <= maxUint64)%N ->
  parse_loop a s = inl (dval a s).
Proof.
  revert a. induction s as [|c s IH]; intros a Hd Hr; [reflexivity|].
  cbn [forallb] in Hd. apply andb_prop in Hd as [Hc Hs].
  cbn [parse_loop]. rewrite Hc.
  set (n1 := (a * 10 + Z.to_N (byte_val c - byte_val "0"))%N).
  assert (Hn1 : (n1 <= maxUint64)%N).
  { eapply N.le_trans; [apply (dval_ge s n1)|]. exact Hr. }
  apply N.ltb_ge in Hn1. rewrite Hn1. apply IH; assumption.
Qed.

Lemma format_loop_dval (fuel : nat) :
  forall (n : N) (acc : list byte),
    (n < 10 ^ N.of_nat fuel)%N ->
    dval 0 (format_loop fuel n acc) = dval n acc.
Proof.
  induction fuel as [|fuel IH]; intros n acc Hn.
  - cbn in Hn. assert (n = 0%N) by lia. subst n. reflexivity.
  - rewrite Nat2N.inj_succ, N.pow_succ_r' in Hn.
    assert (Hm : (n mod 10 < 10)%N) by (apply N.mod_lt; lia).
    destruct (digit_spec (n mod 10) Hm) as (_ & Hv & _).
    pose proof (N.div_mod n 10 ltac:(lia)) as Hdm.
    cbn [format_loop].
    destruct (n / 10 =? 0)%N eqn:E.
    + apply N.eqb_eq in E. unfold dval. cbn [fold_left].
      rewrite Hv. f_equal. clear - Hdm E. lia.
    + rewrite IH by (apply N.Div0.div_lt_upper_bound; lia).
      unfold dval. cbn [fold_left].
      rewrite Hv. f_equal. clear - Hdm. lia.
Qed.

Lemma format_loop_digits (fuel : nat) :
  forall (n : N) (acc : list byte),
    forallb is_digit acc = true ->
    forallb is_digit (format_loop fuel n acc) = true.
Proof.
  induction fuel as [|fuel IH]; intros n acc Ha; [exact Ha|].
  assert (Hm : (n mod 10 < 10)%N) by (apply N.mod_lt; lia).
  destruct (digit_spec (n mod 10) Hm) as (Hd & _ & _).
  cbn [format_loop].
  assert (Ha' : forallb is_digit (digit (n mod 10) :: acc) = true)
    by (cbn [forallb]; rewrite Hd, Ha; reflexivity).
  destruct (n / 10 =? 0)%N; [exact Ha' | apply IH; exact Ha'].
Qed.

(** The first digit printed is not a zero, unless the number is zero and
    the zero is its only digit. *)
Lemma format_loop_head (fuel : nat) :
  forall (n : N) (acc : list byte),
    (n < 10 ^ N.of_nat (S fuel))%N ->
    exists c rest,
      format_loop (S fuel) n acc = c :: rest
      /\ (n = 0%N -> rest = acc)
      /\ (n <> 0%N -> Byte.eqb c "0" = false).
Proof.
  induction fuel as [|fuel IH]; intros n acc Hn.
  - change (10 ^ N.of_nat 1)%N with 10%N in Hn.
    destruct (digit_spec n Hn) as (_ & _ & Hz).
    assert (Hq : (n / 10 = 0)%N) by (apply N.div_small; exact Hn).
    assert (Hr : (n mod 10 = n)%N) by (apply N.mod_small; exact Hn).
    cbn [format_loop]. rewrite Hq, Hr. cbn [N.eqb].
    exists (digit n), acc. auto.
  - rewrite Nat2N.inj_succ, N.pow_succ_r' in Hn.
    assert (Hm : (n mod 10 < 10)%N) by (apply N.mod_lt; lia).
    destruct (digit_spec (n mod 10) Hm) as (_ & _ & Hz).
    change (format_loop (S (S fuel)) n acc)
      with (if (n / 10 =? 0)%N then digit (n mod 10) :: acc
            else format_loop (S fuel) (n / 10) (digit (n mod 10) :: acc)).
    destruct (n / 10 =? 0)%N eqn:E.
    + apply N.eqb_eq in E.
      assert (Hr : (n mod 10 = n)%N).
      { pose proof (N.div_mod n 10 ltac:(lia)). lia. }
      exists (digit (n mod 10)), acc. rewrite Hr in *. auto.
    + apply N.eqb_neq in E.
      destruct (IH (n / 10)%N (digit (n mod 10) :: acc))
        as (c & rest & Heq & _ & Hnz);
        [apply N.Div0.div_lt_upper_bound; lia|].
      exists c, rest. split; [exact Heq|]. split.
      * intros ->. cbn in E. contradiction.
      * intros _. apply Hnz. exact E.
Qed.

Lemma fuel_suffices (n : N) : (n < 10 ^ N.of_nat (S (N.to_nat (N.log2 n))))%N.
Proof.
  rewrite Nat2N.inj_succ, N2Nat.id.
  destruct (N.eq_dec n 0) as [-> | Hnz]; [reflexivity|].
  destruct (N.log2_spec n) as [_ Hlt]; [lia|].
  eapply N.lt_le_trans; [exact Hlt|].
  apply N.pow_le_mono_l. lia.
Qed.

(** The four facts the parser needs about a printed number. *)
Lemma FormatUint_spec (n : N) :
  (n <= maxUint64)%N ->
  forallb is_digit (FormatUint n) = true
  /\ semver.hasLeadingZeroes (FormatUint n) = false
  /\ ParseUint (FormatUint n) = inl n
  /\ FormatUint n <> [].
Proof.
  intros Hn. unfold FormatUint.
  pose proof (fuel_suffices n) as Hf.
  assert (Hd : forallb is_digit
                 (format_loop (S (N.to_nat (N.log2 n))) n []) = true)
    by (apply format_loop_digits; reflexivity).
  destruct (format_loop_head (N.to_nat (N.log2 n)) n [] Hf)
    as (c & rest & Heq & Hz & Hnz).
  pose proof (format_loop_dval _ n [] Hf) as Hv.
  rewrite Heq in *. split; [exact Hd|]. split; [|split].
  - destruct (N.eq_dec n 0) as [Hn0 | Hn0].
    + rewrite (Hz Hn0). reflexivity.
    + cbn [semver.hasLeadingZeroes]. rewrite (Hnz Hn0).
      destruct rest; reflexivity.
  - cbn [ParseUint]. rewrite parse_loop_dval; rewrite ?Hv; auto.
  - discriminate.
Qed.

End strconv_facts.

(* ================================================================== *)
(** * Splitting and trimming *)

Module strings_facts.

Import strings.

Lemma eqb_refl (b : byte) : Byte.eqb b b = true.
Proof. apply Byte.byte_dec_lb. reflexivity. Qed.

Lemma IndexByte_None_cons (x c : byte) (s : list byte) :
  IndexByte (x :: s) c = None ->
  Byte.eqb x c = false /\ IndexByte s c = None.
Proof.
  cbn [IndexByte]. destruct (Byte.eqb x c); [discriminate|].
  destruct (IndexByte s c); [discriminate|]. auto.
Qed.

Lemma IndexByte_app_hit (a b : list byte) (c : byte) :
  IndexByte a c = None -> IndexByte (a ++ c :: b) c = Some (length a).
Proof.
  induction a as [|x a IH]; intros Ha.
  - cbn [app IndexByte length]. rewrite eqb_refl. reflexivity.
  - apply IndexByte_None_cons in Ha as [Hx Ha].
    cbn [app IndexByte length]. rewrite Hx, (IH Ha). reflexivity.
Qed.

Lemma IndexByte_app_miss (a b : list byte) (c : byte) :
  IndexByte a c = None -> IndexByte b c = None ->
  IndexByte (a ++ b) c = None.
Proof.
  induction a as [|x a IH]; intros Ha Hb; [exact Hb|].
  apply IndexByte_None_cons in Ha as [Hx Ha].
  cbn [app IndexByte]. rewrite Hx, (IH Ha Hb). reflexivity.
Qed.

Lemma IndexByte_forallb (P : byte -> bool) (s : list byte) (c : byte) :
  (forall x, P x = true -> Byte.eqb x c = false) ->
  forallb P s = true -> IndexByte s c = None.
Proof.
  intros HP. induction s as [|x s IH]; intros Hs; [reflexivity|].
  cbn [forallb] in Hs. apply andb_prop in Hs as [Hx Hs].
  cbn [IndexByte]. rewrite (HP x Hx), (IH Hs). reflexivity.
Qed.

Lemma firstn_length_app (a b : list byte) : firstn (length a) (a ++ b) = a.
Proof.
  rewrite firstn_app, firstn_all, Nat.sub_diag. cbn. apply app_nil_r.
Qed.

Lemma skipn_length_app (a b : list byte) (c : byte) :
  skipn (length a + 1) (a ++ c :: b) = b.
Proof.
  induction a as [|x a IH]; [reflexivity|]. exact IH.
Qed.

(** A text with two dots outside its first two fields splits into three
    parts. *)
Lemma SplitN_three (a b r : list byte) :
  IndexByte a "." = None -> IndexByte b "." = None ->
  SplitN (a ++ "."%byte :: b ++ "."%byte :: r) "." 3 = [a; b; r].
Proof.
  intros Ha Hb.
  change (SplitN (a ++ "."%byte :: b ++ "."%byte :: r) "." 3)
    with (match IndexByte (a ++ "."%byte :: b ++ "."%byte :: r) "." with
          | None => [a ++ "."%byte :: b ++ "."%byte :: r]
          | Some m =>
              firstn m (a ++ "."%byte :: b ++ "."%byte :: r)
              :: SplitN (skipn (m + 1) (a ++ "."%byte :: b ++ "."%byte :: r))
                        "." 2
          end).
  rewrite (IndexByte_app_hit a _ _ Ha), firstn_length_app, skipn_length_app.
  change (SplitN (b ++ "."%byte :: r) "." 2)
    with (match IndexByte (b ++ "."%byte :: r) "." with
          | None => [b ++ "."%byte :: r]
          | Some m =>
              firstn m (b ++ "."%byte :: r)
              :: SplitN (skipn (m + 1) (b ++ "."%byte :: r)) "." 1
          end).
  rewrite (IndexByte_app_hit b _ _ Hb), firstn_length_app, skipn_length_app.
  reflexivity.
Qed.

(** Without a separator [Split] returns the text as its only part. *)
Lemma Split_single (s : list byte) (c : byte) :
  IndexByte s c = None -> Split s c = [s].
Proof.
  intros Hs. unfold Split. rewrite Nat.add_1_r.
  destruct (length s) as [|k]; [reflexivity|].
  cbn [SplitN]. rewrite Hs. reflexivity.
Qed.

Lemma drop_one_v (rest : list byte) :
  drop_one spaces ("v"%byte :: rest) = None.
Proof. reflexivity. Qed.

Lemma drop_one_alphanum (c : byte) (u : list byte) :
  ContainsByte semver.alphanum c = true ->
  drop_one (map (@rev byte) spaces) (c :: u) = None.
Proof.
  intros H. destruct c; vm_compute in H; try discriminate H; reflexivity.
Qed.

(** [TrimSpace] leaves a text alone that starts with "v" and ends with a
    letter, a digit or a hyphen. *)
Lemma TrimSpace_version (w : list byte) (c : byte) :
  ContainsByte semver.alphanum c = true ->
  TrimSpace ("v"%byte :: w ++ [c]) = "v"%byte :: w ++ [c].
Proof.
  intros Hc. unfold TrimSpace.
  assert (Hl : drop_all (length ("v"%byte :: w ++ [c])) spaces
                        ("v"%byte :: w ++ [c])
               = "v"%byte :: w ++ [c])
    by (cbn [length drop_all]; rewrite drop_one_v; reflexivity).
  rewrite Hl.
  assert (Hrev : rev ("v"%byte :: w ++ [c]) = c :: (rev w ++ ["v"%byte]))
    by (cbn [rev]; rewrite rev_unit; reflexivity).
  rewrite Hrev. cbn [length drop_all].
  rewrite (drop_one_alphanum c _ Hc), <- Hrev. apply rev_involutive.
Qed.

End strings_facts.

(* ================================================================== *)
(** * Character classes *)

Module semver_facts.

Import strings semver strings_facts.

Lemma digit_classes (x : byte) :
  strconv.is_digit x = true ->
  ContainsByte numbers x = true
  /\ ContainsByte alphanum x = true
  /\ Byte.eqb x "." = false /\ Byte.eqb x "-" = false
  /\ Byte.eqb x "+" = false.
Proof.
  intros H. destruct x; vm_compute in H; try discriminate H;
    repeat split; reflexivity.
Qed.

Lemma numbers_is_digit (x : byte) :
  ContainsByte numbers x = strconv.is_digit x.
Proof. destruct x; reflexivity. Qed.

Lemma alphanum_classes (x : byte) :
  ContainsByte alphanum x = true ->
  Byte.eqb x "." = false /\ Byte.eqb x "+" = false.
Proof.
  intros H. destruct x; vm_compute in H; try discriminate H;
    split; reflexivity.
Qed.

Lemma containsOnly_numbers (s : list byte) :
  containsOnly s numbers = forallb strconv.is_digit s.
Proof.
  unfold containsOnly. induction s as [|x s IH]; [reflexivity|].
  cbn [forallb]. rewrite numbers_is_digit, IH. reflexivity.
Qed.

Lemma digits_alphanum (s : list byte) :
  forallb strconv.is_digit s = true -> containsOnly s alphanum = true.
Proof.
  intros H. unfold containsOnly. apply forallb_forall. intros x Hx.
  rewrite forallb_forall in H. apply (digit_classes x (H x Hx)).
Qed.

Lemma digits_no (s : list byte) :
  forallb strconv.is_digit s = true ->
  IndexByte s "." = None /\ IndexByte s "-" = None /\ IndexByte s "+" = None.
Proof.
  intros H. repeat split;
    (apply (IndexByte_forallb strconv.is_digit); [|exact H]);
    intros x Hx; apply (digit_classes x Hx).
Qed.

Lemma alphanum_no (s : list byte) :
  containsOnly s alphanum = true ->
  IndexByte s "." = None /\ IndexByte s "+" = None.
Proof.
  intros H. split;
    (apply (IndexByte_forallb (ContainsByte alphanum)); [|exact H]);
    intros x Hx; apply (alphanum_classes x Hx).
Qed.

(** A printed number parses back as a version component. *)
Lemma number_FormatUint (n : N) (e1 e2 : semver_error) :
  (n <= strconv.maxUint64)%N ->
  number (strconv.FormatUint n) e1 e2 = inl n.
Proof.
  intros Hn.
  destruct (strconv_facts.FormatUint_spec n Hn) as (Hd & Hz & Hp & _).
  unfold number. rewrite containsOnly_numbers, Hd, Hz. exact Hp.
Qed.

(** A well-formed prerelease identifier prints to a non-empty text over
    [alphanum] that parses back to it. *)
Lemma NewPRVersion_String (p : PRVersion) :
  valid_PRVersion p = true ->
  NewPRVersion (PRVersion_String p) = inl p
  /\ PRVersion_String p <> []
  /\ containsOnly (PRVersion_String p) alphanum = true.
Proof.
  destruct p as [s n b]. unfold valid_PRVersion, PRVersion_String.
  cbn [IsNum VersionNum VersionStr]. destruct b; intros Hv.
  - apply andb_prop in Hv as [Hn Hs].
    apply N.leb_le in Hn. apply Nat.eqb_eq in Hs.
    destruct s; [|discriminate Hs].
    destruct (strconv_facts.FormatUint_spec n Hn) as (Hd & Hz & Hp & Hne).
    split; [|split; [exact Hne | apply digits_alphanum; exact Hd]].
    unfold NewPRVersion.
    destruct (strconv.FormatUint n) as [|c l] eqn:E; [contradiction|].
    rewrite containsOnly_numbers, Hd, Hz, Hp. reflexivity.
  - apply andb_prop in Hv as [Hv Hnum]. apply andb_prop in Hv as [Hv Ha].
    apply andb_prop in Hv as [Hn Hlen].
    apply N.eqb_eq in Hn. subst n. apply negb_true_iff in Hnum.
    destruct s as [|c l]; [discriminate Hlen|].
    split; [|split; [discriminate | exact Ha]].
    unfold NewPRVersion. rewrite Hnum, Ha. reflexivity.
Qed.

Lemma ends_alphanum (t : list byte) :
  t <> [] -> containsOnly t alphanum = true ->
  exists t' c, t = t' ++ [c] /\ ContainsByte alphanum c = true.
Proof.
  intros Hne Ha. destruct (exists_last Hne) as (t' & c & ->).
  exists t', c. split; [reflexivity|].
  unfold containsOnly in Ha. rewrite forallb_app in Ha.
  apply andb_prop in Ha as [_ Hc]. cbn in Hc.
  rewrite andb_true_r in Hc. exact Hc.
Qed.

End semver_facts.

(* ================================================================== *)
(** * Printing a version and parsing it back *)

Module round_trip.

Import strings semver strings_facts semver_facts.

(** The text after the patch number: every prerelease identifier after a
    hyphen of its own. *)
Lemma build_fold (pre : list PRVersion) (acc : list byte) :
  fold_left (fun build val => build ++ str "-" ++ PRVersion_String val)
            pre acc
  = acc ++ flat_map (fun val => "-"%byte :: PRVersion_String val) pre.
Proof.
  revert acc. induction pre as [|p pre IH]; intros acc.
  - cbn. symmetry. apply app_nil_r.
  - cbn [fold_left flat_map]. rewrite IH, <- !app_assoc. reflexivity.
Qed.

Lemma SemVer_String_shape (v : SemVer) :
  SemVer_String v
  = "v"%byte :: strconv.FormatUint (Major v)
    ++ "."%byte :: strconv.FormatUint (Minor v)
    ++ "."%byte :: strconv.FormatUint (Patch v)
    ++ flat_map (fun val => "-"%byte :: PRVersion_String val) (Pre v).
Proof.
  unfold SemVer_String. rewrite build_fold.
  change (str "v") with ["v"%byte]. change (str ".") with ["."%byte].
  destruct (Pre v) as [|p pre].
  - cbn [length Nat.ltb Nat.leb flat_map app]. rewrite app_nil_r.
    reflexivity.
  - cbn [length Nat.ltb Nat.leb app].
    repeat (rewrite <- app_assoc; cbn [app]). reflexivity.
Qed.

Section Printed.

Variables (M m P : N) (pre : list PRVersion).
Hypothesis HM : (M <= strconv.maxUint64)%N.
Hypothesis Hm : (m <= strconv.maxUint64)%N.
Hypothesis HP : (P <= strconv.maxUint64)%N.
Hypothesis Hpre : forallb valid_PRVersion pre = true.
Hypothesis Hone : (length pre <= 1)%nat.

Let tail : list byte :=
  flat_map (fun val => "-"%byte :: PRVersion_String val) pre.

Let body : list byte :=
  strconv.FormatUint M ++ "."%byte :: strconv.FormatUint m
  ++ "."%byte :: strconv.FormatUint P ++ tail.

Lemma tail_no_plus : IndexByte tail "+" = None.
Proof.
  unfold tail. destruct pre as [|p [|q l]]; [reflexivity| |cbn in Hone; lia].
  cbn [forallb] in Hpre. apply andb_prop in Hpre as [Hp _].
  destruct (NewPRVersion_String p Hp) as (_ & _ & Ha).
  cbn [flat_map]. rewrite app_nil_r. cbn [IndexByte].
  change (Byte.eqb "-" "+") with false. cbv iota.
  rewrite (proj2 (alphanum_no _ Ha)). reflexivity.
Qed.

Lemma Parse_printed :
  Parse body
  = inl {| Major := M; Minor := m; Patch := P; Pre := pre; Build := [] |}.
Proof.
  destruct (strconv_facts.FormatUint_spec M HM) as (HdM & _ & _ & HneM).
  destruct (strconv_facts.FormatUint_spec m Hm) as (Hdm & _ & _ & _).
  destruct (strconv_facts.FormatUint_spec P HP) as (HdP & _ & _ & _).
  destruct (digits_no _ HdM) as (HM1 & _ & _).
  destruct (digits_no _ Hdm) as (Hm1 & _ & _).
  destruct (digits_no _ HdP) as (_ & HP2 & HP3).
  pose proof tail_no_plus as Htp.
  unfold Parse.
  remember body as rest eqn:Er.
  destruct rest as [|c l].
  { exfalso. symmetry in Er. unfold body in Er.
    apply app_eq_nil in Er as [Er _]. contradiction. }
  rewrite Er. unfold body.
  rewrite (SplitN_three _ _ _ HM1 Hm1).
  cbv beta iota zeta.
  rewrite !number_FormatUint by assumption.
  rewrite (IndexByte_app_miss _ _ _ HP3 Htp).
  unfold tail in *. clear Er Htp.
  destruct pre as [|p [|q r]]; [| |cbn in Hone; lia].
  - cbn [flat_map]. rewrite app_nil_r, HP2.
    rewrite number_FormatUint by assumption. reflexivity.
  - cbn [forallb] in Hpre. apply andb_prop in Hpre as [Hp _].
    destruct (NewPRVersion_String p Hp) as (Hnew & _ & Ha).
    cbn [flat_map]. rewrite app_nil_r.
    rewrite (IndexByte_app_hit _ _ _ HP2).
    rewrite firstn_length_app, skipn_length_app.
    rewrite (Split_single _ _ (proj1 (alphanum_no _ Ha))).
    rewrite number_FormatUint by assumption.
    cbn [collect]. rewrite Hnew. reflexivity.
Qed.

(** The printed version ends with a letter, a digit or a hyphen. *)
Lemma body_ends :
  exists w c, body = w ++ [c] /\ ContainsByte alphanum c = true.
Proof.
  destruct (strconv_facts.FormatUint_spec P HP) as (HdP & _ & _ & HneP).
  assert (Hlast : exists t' c,
             strconv.FormatUint P ++ tail = t' ++ [c]
             /\ ContainsByte alphanum c = true).
  { unfold tail. destruct pre as [|p [|q r]]; [| |cbn in Hone; lia].
    - cbn [flat_map]. rewrite app_nil_r.
      apply ends_alphanum; [exact HneP | apply digits_alphanum; exact HdP].
    - cbn [forallb] in Hpre. apply andb_prop in Hpre as [Hp _].
      destruct (NewPRVersion_String p Hp) as (_ & Hne & Ha).
      destruct (ends_alphanum _ Hne Ha) as (t' & c & Ht & Hc).
      cbn [flat_map]. rewrite app_nil_r, Ht.
      exists (strconv.FormatUint P ++ "-"%byte :: t'), c.
      split; [rewrite <- app_assoc; reflexivity | exact Hc]. }
  destruct Hlast as (t' & c & Ht & Hc).
  exists (strconv.FormatUint M ++ "."%byte :: strconv.FormatUint m
          ++ "."%byte :: t'), c.
  split; [|exact Hc]. unfold body. rewrite Ht.
  rewrite <- !app_assoc. cbn [app]. rewrite <- !app_assoc. reflexivity.
Qed.

Lemma ParseTolerant_printed :
  ParseTolerant ("v"%byte :: body)
  = inl {| Major := M; Minor := m; Patch := P; Pre := pre; Build := [] |}.
Proof.
  destruct (strconv_facts.FormatUint_spec M HM) as (HdM & _).
  destruct (strconv_facts.FormatUint_spec m Hm) as (Hdm & _).
  destruct (digits_no _ HdM) as (HM1 & _ & _).
  destruct (digits_no _ Hdm) as (Hm1 & _ & _).
  destruct body_ends as (w & c & Hb & Hc).
  unfold ParseTolerant.
  rewrite Hb, (TrimSpace_version w c Hc), <- Hb.
  change (TrimPrefix ("v"%byte :: body) (str "v")) with body.
  cbv zeta. unfold body at 1 2.
  rewrite (SplitN_three _ _ _ HM1 Hm1).
  cbn [length Nat.ltb Nat.leb].
  exact Parse_printed.
Qed.

End Printed.

End round_trip.




(* ================================================================== *)
(** * The update decision *)

(** C1.  When both version strings of the requirement parse,
    [ShouldUpdateVersion] takes the first of three steps that applies:
    no update when the current version is at or above the suggested one;
    otherwise the requirement's minimum when the current version is below
    it, whatever the identity and the rollout configuration; otherwise
    the suggested version for a rollout candidate and no update for the
    others. *)
Theorem ShouldUpdateVersion_steps
        (currentVersion : SemVer) (nodeID : NodeID) (requested : Process)
        (suggested minimum : SemVer) :
  NewSemVer (Version_ (Suggested requested)) = (suggested, None) ->
  NewSemVer (Version_ (Minimum requested)) = (minimum, None) ->
  (0 <= Compare currentVersion suggested ->
   ShouldUpdateVersion currentVersion nodeID requested
   = (Version_zero, reason_up_to_date, None))
  /\ (Compare currentVersion suggested < 0 ->
      Compare currentVersion minimum < 0 ->
      forall (id : NodeID) (rollout : Rollout),
        ShouldUpdateVersion currentVersion id
          {| Minimum := Minimum requested; Suggested := Suggested requested;
             Rollout_ := rollout |}
        = (Minimum requested, reason_below_minimum, None))
  /\ (Compare currentVersion suggested < 0 ->
      0 <= Compare currentVersion minimum ->
      ShouldUpdateVersion currentVersion nodeID requested
      = if isRolloutCandidate nodeID (Rollout_ requested)
        then (Suggested requested, reason_candidate, None)
        else (Version_zero, reason_pending, None)).
Proof.
  intros Hs Hm. unfold ShouldUpdateVersion, Version_SemVer.
  cbn [Minimum Suggested Rollout_]. rewrite Hs, Hm.
  split; [|split].
  - intros H. apply Z.leb_le in H. rewrite H. reflexivity.
  - intros H1 H2 id rollout.
    apply Z.leb_gt in H1. apply Z.ltb_lt in H2. rewrite H1, H2. reflexivity.
  - intros H1 H2.
    apply Z.leb_gt in H1. apply Z.ltb_ge in H2. rewrite H1, H2. reflexivity.
Qed.

Lemma ShouldUpdateVersion_steps_witness :
  let requested :=
    {| Minimum := {| Version_ := str "v1.0.0"; URL := str "min" |};
       Suggested := {| Version_ := str "v1.1.0"; URL := str "sug" |};
       Rollout_ := {| Seed := zeroRolloutBytes;
                      Cursor := zeroRolloutBytes |} |} in
  ShouldUpdateVersion (fst (NewSemVer (str "v0.9.0"))) (repeat x01 32)
                      requested
  = (Minimum requested, reason_below_minimum, None).
Proof.
  intros requested.
  assert (Hs : NewSemVer (Version_ (Suggested requested))
               = (fst (NewSemVer (str "v1.1.0")), None))
    by (vm_compute; reflexivity).
  assert (Hm : NewSemVer (Version_ (Minimum requested))
               = (fst (NewSemVer (str "v1.0.0")), None))
    by (vm_compute; reflexivity).
  assert (H1 : Compare (fst (NewSemVer (str "v0.9.0")))
                       (fst (NewSemVer (str "v1.1.0"))) < 0)
    by (vm_compute; reflexivity).
  assert (H2 : Compare (fst (NewSemVer (str "v0.9.0")))
                       (fst (NewSemVer (str "v1.0.0"))) < 0)
    by (vm_compute; reflexivity).
  exact (proj1 (proj2 (ShouldUpdateVersion_steps
                         (fst (NewSemVer (str "v0.9.0"))) (repeat x01 32)
                         requested _ _ Hs Hm))
               H1 H2 (repeat x01 32) (Rollout_ requested)).
Defined.

(** C10.  The minimum is parsed only after the check against the
    suggested version has failed: when the suggested version parses and
    the current version is at or above it, the result is "up to date"
    with a nil error, whatever the minimum's version string is. *)
Theorem ShouldUpdateVersion_lazy_minimum
        (currentVersion : SemVer) (nodeID : NodeID) (requested : Process)
        (suggested : SemVer) :
  NewSemVer (Version_ (Suggested requested)) = (suggested, None) ->
  0 <= Compare currentVersion suggested ->
  ShouldUpdateVersion currentVersion nodeID requested
  = (Version_zero, reason_up_to_date, None).
Proof.
  intros Hs H. unfold ShouldUpdateVersion, Version_SemVer. rewrite Hs.
  apply Z.leb_le in H. rewrite H. reflexivity.
Qed.

Lemma ShouldUpdateVersion_lazy_minimum_witness :
  let requested :=
    {| Minimum := {| Version_ := str "not a version"; URL := [] |};
       Suggested := {| Version_ := str "v1.1.0"; URL := [] |};
       Rollout_ := {| Seed := zeroRolloutBytes;
                      Cursor := zeroRolloutBytes |} |} in
  snd (NewSemVer (Version_ (Minimum requested)))
  = Some (VerError_semver ErrMajorChars)
  /\ ShouldUpdateVersion (fst (NewSemVer (str "v1.1.0"))) (repeat x01 32)
                         requested
     = (Version_zero, reason_up_to_date, None).
Proof.
  intros requested. split; [vm_compute; reflexivity|].
  assert (Hs : NewSemVer (Version_ (Suggested requested))
               = (fst (NewSemVer (str "v1.1.0")), None))
    by (vm_compute; reflexivity).
  assert (H : 0 <= Compare (fst (NewSemVer (str "v1.1.0")))
                           (fst (NewSemVer (str "v1.1.0"))))
    by (vm_compute; discriminate).
  exact (ShouldUpdateVersion_lazy_minimum _ (repeat x01 32) requested _ Hs H).
Defined.

(** The four scenarios of the specification, and the two ways a version
    string that does not parse ends the evaluation. *)
Example ShouldUpdateVersion_scenarios :
  let ver s := {| Version_ := str s; URL := [] |} in
  let req min sug cur :=
    {| Minimum := ver min; Suggested := ver sug;
       Rollout_ := {| Seed := zeroRolloutBytes; Cursor := cur |} |} in
  let at_ s := fst (NewSemVer (str s)) in
  let id := repeat x01 32 in
  ShouldUpdateVersion (at_ "v1.0.0"%string) id
    (req "v1.0.0"%string "v1.0.0"%string (PercentageToCursor 50))
  = (Version_zero, reason_up_to_date, None)
  /\ ShouldUpdateVersion (at_ "v0.9.0"%string) id
       (req "v1.0.0"%string "v1.1.0"%string zeroRolloutBytes)
     = (ver "v1.0.0"%string, reason_below_minimum, None)
  /\ ShouldUpdateVersion (at_ "v1.0.0"%string) id
       (req "v1.0.0"%string "v1.1.0"%string (PercentageToCursor 100))
     = (ver "v1.1.0"%string, reason_candidate, None)
  /\ ShouldUpdateVersion (at_ "v1.0.0"%string) id
       (req "v1.0.0"%string "v1.1.0"%string zeroRolloutBytes)
     = (Version_zero, reason_pending, None)
  /\ ShouldUpdateVersion (at_ "v1.0.0"%string) id
       (req "v1.0.0"%string "1.x"%string zeroRolloutBytes)
     = (Version_zero, [], Some (VerError_semver ErrMinorChars))
  /\ ShouldUpdateVersion (at_ "v1.0.0"%string) id
       (req ""%string "v1.1.0"%string zeroRolloutBytes)
     = (Version_zero, [], Some (VerError_semver ErrSyntax)).
Proof.
  intros ver req at_ id.
  split; [vm_compute; reflexivity|]. split; [vm_compute; reflexivity|].
  split; [vm_compute; reflexivity|]. split; [vm_compute; reflexivity|].
  split; vm_compute; reflexivity.
Qed.

(* ================================================================== *)
(** * More on the update decision *)

Lemma NewSemVer_empty : NewSemVer [] = (semver.zero, Some (VerError_semver ErrSyntax)).
Proof. vm_compute. reflexivity. Qed.

Lemma parsed_not_zero (ver : Version) (sv : SemVer) :
  NewSemVer (Version_ ver) = (sv, None) -> Version_IsZero ver = false.
Proof.
  unfold Version_IsZero. destruct (Version_ ver); [|reflexivity].
  rewrite NewSemVer_empty. discriminate.
Qed.

(** X1.  [ShouldUpdateVersion] returns an error exactly when the
    suggested version does not parse, or it parses, the current version
    is below it and the minimum does not parse; the error is that of the
    failed parse and comes with the zero [Version] and an empty reason. *)
Theorem ShouldUpdateVersion_error
        (currentVersion : SemVer) (nodeID : NodeID) (requested : Process)
        (e : error) :
  (snd (ShouldUpdateVersion currentVersion nodeID requested) = Some e
   <-> snd (NewSemVer (Version_ (Suggested requested))) = Some e
       \/ (snd (NewSemVer (Version_ (Suggested requested))) = None
           /\ Compare currentVersion
                      (fst (NewSemVer (Version_ (Suggested requested)))) < 0
           /\ snd (NewSemVer (Version_ (Minimum requested))) = Some e))
  /\ (snd (ShouldUpdateVersion currentVersion nodeID requested) = Some e ->
      ShouldUpdateVersion currentVersion nodeID requested
      = (Version_zero, [], Some e)).
Proof.
  unfold ShouldUpdateVersion, Version_SemVer.
  destruct (NewSemVer (Version_ (Suggested requested))) as [sv [es|]];
    cbn [fst snd].
  - split.
    + split; [intros H; left; exact H|].
      intros [H | (H & _)]; [exact H | discriminate H].
    + intros H. injection H as <-. reflexivity.
  - destruct (0 <=? Compare currentVersion sv) eqn:E1; cbn [fst snd].
    + apply Z.leb_le in E1. split.
      * split; [discriminate|].
        intros [H | (_ & H & _)]; [discriminate H | lia].
      * discriminate.
    + apply Z.leb_gt in E1.
      destruct (NewSemVer (Version_ (Minimum requested))) as [mv [em|]];
        cbn [fst snd].
      * split.
        -- split; [intros H; right; auto|].
           intros [H | (_ & _ & H)]; [discriminate H | exact H].
        -- intros H. injection H as <-. reflexivity.
      * assert (Hn : forall r : Version * list byte * option error,
                   (r = (if Compare currentVersion mv <? 0
                         then (Minimum requested, reason_below_minimum, None)
                         else if isRolloutCandidate nodeID (Rollout_ requested)
                              then (Suggested requested, reason_candidate, None)
                              else (Version_zero, reason_pending, None))) ->
                   snd r = None).
        { intros r ->. destruct (Compare currentVersion mv <? 0);
            [reflexivity|].
          destruct (isRolloutCandidate nodeID (Rollout_ requested));
            reflexivity. }
        rewrite (Hn _ eq_refl). split.
        -- split; [discriminate|].
           intros [H | (_ & _ & H)]; discriminate H.
        -- discriminate.
Qed.

Lemma ShouldUpdateVersion_error_witness :
  let requested :=
    {| Minimum := {| Version_ := str "1.x"; URL := [] |};
       Suggested := {| Version_ := str "v1.1.0"; URL := [] |};
       Rollout_ := {| Seed := zeroRolloutBytes;
                      Cursor := zeroRolloutBytes |} |} in
  ShouldUpdateVersion (fst (NewSemVer (str "v1.0.0"))) [] requested
  = (Version_zero, [], Some (VerError_semver ErrMinorChars)).
Proof.
  intros requested.
  apply (proj2 (ShouldUpdateVersion_error
                  (fst (NewSemVer (str "v1.0.0"))) [] requested
                  (VerError_semver ErrMinorChars))).
  vm_compute. reflexivity.
Defined.

(** X2.  With a nil error the returned version is either the zero
    [Version], in the two no-update outcomes, or one of the
    requirement's two versions; in that case it is not zero, its string
    parses, and the parsed version is strictly above the current one: no
    downgrade and no update to the running version is ever proposed. *)
Theorem ShouldUpdateVersion_target
        (currentVersion : SemVer) (nodeID : NodeID) (requested : Process)
        (updateVersion : Version) (reason : list byte) :
  ShouldUpdateVersion currentVersion nodeID requested
  = (updateVersion, reason, None) ->
  (updateVersion = Version_zero
   /\ Version_IsZero updateVersion = true
   /\ (reason = reason_up_to_date \/ reason = reason_pending))
  \/ ((updateVersion = Minimum requested /\ reason = reason_below_minimum
       \/ updateVersion = Suggested requested /\ reason = reason_candidate)
      /\ Version_IsZero updateVersion = false
      /\ exists target,
           NewSemVer (Version_ updateVersion) = (target, None)
           /\ Compare currentVersion target < 0).
Proof.
  unfold ShouldUpdateVersion, Version_SemVer.
  destruct (NewSemVer (Version_ (Suggested requested))) as [sv [es|]] eqn:Hs;
    [discriminate|].
  destruct (0 <=? Compare currentVersion sv) eqn:E1.
  { intros H. injection H as <- <-. left. auto. }
  apply Z.leb_gt in E1.
  destruct (NewSemVer (Version_ (Minimum requested))) as [mv [em|]] eqn:Hm;
    [discriminate|].
  destruct (Compare currentVersion mv <? 0) eqn:E2.
  { apply Z.ltb_lt in E2. intros H. injection H as <- <-. right.
    split; [left; auto|]. split; [exact (parsed_not_zero _ _ Hm)|].
    exists mv. auto. }
  destruct (isRolloutCandidate nodeID (Rollout_ requested)).
  - intros H. injection H as <- <-. right.
    split; [right; auto|]. split; [exact (parsed_not_zero _ _ Hs)|].
    exists sv. auto.
  - intros H. injection H as <- <-. left. auto.
Qed.

Lemma ShouldUpdateVersion_target_witness :
  let requested :=
    {| Minimum := {| Version_ := str "v1.0.0"; URL := str "min" |};
       Suggested := {| Version_ := str "v1.1.0"; URL := str "sug" |};
       Rollout_ := {| Seed := zeroRolloutBytes;
                      Cursor := zeroRolloutBytes |} |} in
  exists target,
    NewSemVer (str "v1.0.0") = (target, None)
    /\ Compare (fst (NewSemVer (str "v0.9.0"))) target < 0.
Proof.
  intros requested.
  assert (H : ShouldUpdateVersion (fst (NewSemVer (str "v0.9.0")))
                                  (repeat x01 32) requested
              = (Minimum requested, reason_below_minimum, None))
    by (vm_compute; reflexivity).
  destruct (ShouldUpdateVersion_target _ _ _ _ _ H)
    as [(Hz & _) | (_ & _ & Ht)].
  - discriminate Hz.
  - exact Ht.
Defined.

(* ================================================================== *)
(** * More on cursors: byte lengths, overflow, signs *)

Lemma be_value_app (l1 l2 : list byte) :
  be_value (l1 ++ l2)
  = be_value l1 * 256 ^ Z.of_nat (length l2) + be_value l2.
Proof.
  unfold be_value at 1. rewrite fold_left_app.
  fold (be_value l1). apply be_fold_shift.
Qed.

Lemma be_bytes_snoc (n : nat) (x : Z) :
  be_bytes (S n) x = be_bytes n (Z.shiftr x 8) ++ [byte_of_Z x].
Proof.
  induction n as [|n IH].
  - cbn [be_bytes app]. change (8 * Z.of_nat 0) with 0.
    rewrite Z.shiftr_0_r. reflexivity.
  - change (be_bytes (S (S n)) x)
      with (byte_of_Z (Z.shiftr x (8 * Z.of_nat (S n))) :: be_bytes (S n) x).
    rewrite IH. cbn [be_bytes app]. f_equal. f_equal.
    rewrite Z.shiftr_shiftr by lia. f_equal. lia.
Qed.

(** [big.Int.Bytes] of a positive value with exactly [n] bytes. *)
Lemma big_Bytes_n (n : nat) (x : Z) :
  (1 <= n)%nat ->
  2 ^ (8 * (Z.of_nat n - 1)) <= x < 2 ^ (8 * Z.of_nat n) ->
  big.Bytes x = be_bytes n x.
Proof.
  intros Hn Hx.
  assert (Hpos : 0 < 2 ^ (8 * (Z.of_nat n - 1)))
    by (apply Z.pow_pos_nonneg; lia).
  unfold big.Bytes, big.byte_len. rewrite Z.abs_eq by lia.
  destruct (x =? 0) eqn:E; [apply Z.eqb_eq in E; lia|].
  assert (Hlo : 8 * (Z.of_nat n - 1) <= Z.log2 x).
  { rewrite <- (Z.log2_pow2 (8 * (Z.of_nat n - 1))) by lia.
    apply Z.log2_le_mono. lia. }
  assert (Hhi : Z.log2 x < 8 * Z.of_nat n)
    by (apply Z.log2_lt_pow2; lia).
  assert (Hq : Z.log2 x / 8 = Z.of_nat n - 1).
  { symmetry.
    apply (Z.div_unique _ 8 _ (Z.log2 x - 8 * (Z.of_nat n - 1))); lia. }
  rewrite Hq. f_equal. lia.
Qed.

Lemma big_Bytes_abs (x : Z) : big.Bytes x = big.Bytes (Z.abs x).
Proof. unfold big.Bytes. rewrite Z.abs_idemp. reflexivity. Qed.

(** A product of [n <= 32] bytes lands at the front of a fresh cursor, so
    the cursor's value is the product times [256^(32-n)]. *)
Lemma cursor_of_short (n : nat) (x : Z) :
  (1 <= n <= 32)%nat ->
  2 ^ (8 * (Z.of_nat n - 1)) <= x < 2 ^ (8 * Z.of_nat n) ->
  length (copy zeroRolloutBytes (big.Bytes x)) = 32%nat
  /\ be_value (copy zeroRolloutBytes (big.Bytes x))
     = x * 256 ^ (32 - Z.of_nat n).
Proof.
  intros Hn Hx. rewrite (big_Bytes_n n x) by (lia || exact Hx).
  unfold copy, zeroRolloutBytes.
  rewrite repeat_length, be_bytes_length, firstn_all2
    by (rewrite be_bytes_length; lia).
  rewrite skipn_zeros. split.
  - rewrite length_app, be_bytes_length, repeat_length. lia.
  - rewrite be_value_app, be_value_repeat_zero, repeat_length.
    rewrite be_value_be_bytes, Z.add_0_r.
    rewrite Z.mod_small.
    + f_equal. f_equal. lia.
    + replace (256 ^ Z.of_nat n) with (2 ^ (8 * Z.of_nat n))
        by (rewrite Z.pow_mul_r by lia; reflexivity).
      assert (0 < 2 ^ (8 * (Z.of_nat n - 1)))
        by (apply Z.pow_pos_nonneg; lia).
      lia.
Qed.

(** A product of 33 bytes loses its last byte. *)
Lemma cursor_of_long (x : Z) :
  2 ^ 256 <= x < 2 ^ 264 ->
  length (copy zeroRolloutBytes (big.Bytes x)) = 32%nat
  /\ be_value (copy zeroRolloutBytes (big.Bytes x)) = x / 256.
Proof.
  intros Hx. rewrite (big_Bytes_n 33 x) by (lia || exact Hx).
  rewrite be_bytes_snoc. unfold copy, zeroRolloutBytes.
  rewrite repeat_length, (length_app (be_bytes _ _)), be_bytes_length.
  rewrite firstn_app, be_bytes_length, firstn_all2
    by (rewrite be_bytes_length; lia).
  change (skipn (32 + length [byte_of_Z x]) (repeat x00 32)) with (@nil byte).
  change (firstn (32 - 32) [byte_of_Z x]) with (@nil byte).
  rewrite !app_nil_r.
  split; [apply be_bytes_length|].
  rewrite be_value_be_bytes, Z.shiftr_div_pow2 by lia.
  change (2 ^ 8) with 256. apply Z.mod_small.
  change (256 ^ Z.of_nat 32) with (2 ^ 256). split.
  - apply Z.div_pos; lia.
  - apply Z.div_lt_upper_bound; lia.
Qed.

(** X3.  Below 0.3907 percent the precise mapper does not return the
    cursor of the percentage: with [k = int64(pct*10000)], the product
    [floor(MAX/1000000) * k] has 31 bytes for [16 <= k <= 3906] and 30
    bytes for [1 <= k <= 15]; [copy] writes it at the front of the
    32-byte cursor, so the cursor's value is the product times 256,
    respectively 65536. *)
Theorem PercentageToCursorF_short (pct : float) :
  1 <= scaled pct <= 3906 ->
  length (PercentageToCursorF pct) = 32%nat
  /\ be_value (PercentageToCursorF pct)
     = MAX / 1000000 * scaled pct
       * (if scaled pct <? 16 then 65536 else 256).
Proof.
  intros Hk. rewrite PercentageToCursorF_unfold.
  generalize dependent (scaled pct). intros k Hk.
  assert (Hq : MAX / 1000000
               = 115792089237316195423570985008687907853269984665640564039457584007913129)
    by (vm_compute; reflexivity).
  destruct (k <? 16) eqn:E.
  - apply Z.ltb_lt in E.
    destruct (cursor_of_short 30 (MAX / 1000000 * k)) as [Hl Hv];
      [lia | rewrite Hq; change (8 * (Z.of_nat 30 - 1)) with 232;
             change (8 * Z.of_nat 30) with 240; lia |].
    split; [exact Hl|]. rewrite Hv. reflexivity.
  - apply Z.ltb_ge in E.
    destruct (cursor_of_short 31 (MAX / 1000000 * k)) as [Hl Hv];
      [lia | rewrite Hq; change (8 * (Z.of_nat 31 - 1)) with 240;
             change (8 * Z.of_nat 31) with 248; lia |].
    split; [exact Hl|]. rewrite Hv. reflexivity.
Qed.

Lemma PercentageToCursorF_short_witness :
  be_value (PercentageToCursorF 0.125%float)
  = MAX / 1000000 * 1250 * 256.
Proof.
  assert (E : scaled 0.125%float = 1250) by (vm_compute; reflexivity).
  assert (Hk : 1 <= scaled 0.125%float <= 3906) by (rewrite E; lia).
  pose proof (proj2 (PercentageToCursorF_short 0.125%float Hk)) as H.
  rewrite E in H. exact H.
Defined.

(** X4.  Above 100 percent the legacy product [floor(MAX*pct/100)] has
    33 bytes and [copy] keeps the first 32: for [101 <= pct <= 25600] the
    cursor's value is [floor(MAX*pct/25600)], the cursor of one 256th of
    the percentage, never above the cursor of 100 percent. *)
Theorem PercentageToCursor_above_100 (pct : Z) :
  101 <= pct <= 25600 ->
  length (PercentageToCursor pct) = 32%nat
  /\ be_value (PercentageToCursor pct) = MAX * pct / 25600
  /\ be_value (PercentageToCursor pct) <= be_value (PercentageToCursor 100).
Proof.
  intros Hp. rewrite PercentageToCursor_unfold.
  assert (Hx : 2 ^ 256 <= MAX * pct / 100 < 2 ^ 264).
  { split.
    - apply Z.div_le_lower_bound; [lia|]. unfold MAX. lia.
    - apply Z.div_lt_upper_bound; [lia|]. unfold MAX. lia. }
  destruct (cursor_of_long _ Hx) as [Hl Hv]. rewrite Hv.
  rewrite Z.div_div by lia. change (100 * 256) with 25600.
  split; [exact Hl|]. split; [reflexivity|].
  destruct (PercentageToCursor_value 100) as [_ ->]; [lia|].
  apply Z.div_le_upper_bound; [lia|].
  replace (MAX * 100 / 100) with MAX by (symmetry; apply Z.div_mul; lia).
  unfold MAX. lia.
Qed.

Lemma PercentageToCursor_above_100_witness :
  be_value (PercentageToCursor 200) = MAX * 200 / 25600.
Proof.
  assert (H : 101 <= 200 <= 25600) by lia.
  exact (proj1 (proj2 (PercentageToCursor_above_100 200 H))).
Defined.

(** X5.  A negative legacy percentage is not rejected: [big.Int.Bytes]
    drops the sign of the floored product, so for [-100 <= pct <= -1] the
    cursor's value is [ceil(MAX*|pct|/100)], the cursor of [|pct|] or one
    more. *)
Theorem PercentageToCursor_negative (pct : Z) :
  -100 <= pct <= -1 ->
  length (PercentageToCursor pct) = 32%nat
  /\ be_value (PercentageToCursor pct) = - (MAX * pct / 100)
  /\ be_value (PercentageToCursor (- pct))
     <= be_value (PercentageToCursor pct)
     <= be_value (PercentageToCursor (- pct)) + 1.
Proof.
  intros Hp.
  destruct (PercentageToCursor_value (- pct)) as [_ Hpos]; [lia|].
  rewrite Hpos, PercentageToCursor_unfold, big_Bytes_abs.
  pose proof (Z.mul_div_le (MAX * pct) 100 ltac:(lia)) as H1.
  pose proof (Z.mul_succ_div_gt (MAX * pct) 100 ltac:(lia)) as H2.
  pose proof (Z.mul_div_le (MAX * - pct) 100 ltac:(lia)) as H3.
  pose proof (Z.mul_succ_div_gt (MAX * - pct) 100 ltac:(lia)) as H4.
  set (d := MAX * pct / 100) in *.
  set (f := MAX * - pct / 100) in *.
  assert (HM : MAX = 2 ^ 256 - 1) by reflexivity.
  assert (Hd : d < 0) by lia.
  rewrite Z.abs_neq by lia.
  destruct (cursor_of_full (- d)) as [Hb Hv]; [lia|].
  rewrite Hv, Hb, be_bytes_length.
  split; [reflexivity|]. split; [reflexivity|]. lia.
Qed.

Lemma PercentageToCursor_negative_witness :
  be_value (PercentageToCursor (-50)) = - (MAX * (-50) / 100).
Proof.
  assert (H : -100 <= -50 <= -1) by lia.
  exact (proj1 (proj2 (PercentageToCursor_negative (-50) H))).
Defined.

(** X6.  The precise mapper drops the sign as well: a percentage whose
    scaled value [int64(pct*10000)] lies in [-1000000, -3907] gets the
    cursor [floor(MAX/1000000) * |scaled|] of its absolute value. *)
Theorem PercentageToCursorF_negative (pct : float) :
  -1000000 <= scaled pct <= -3907 ->
  length (PercentageToCursorF pct) = 32%nat
  /\ be_value (PercentageToCursorF pct) = MAX / 1000000 * - scaled pct.
Proof.
  intros Hk. rewrite PercentageToCursorF_unfold, big_Bytes_abs.
  assert (Hq : 0 < MAX / 1000000) by (vm_compute; reflexivity).
  rewrite Z.abs_neq by nia.
  rewrite <- Z.mul_opp_r.
  destruct (cursor_of_full (MAX / 1000000 * - scaled pct)) as [Hb Hv];
    [apply precise_in_range; lia|].
  rewrite Hv, Hb, be_bytes_length. split; reflexivity.
Qed.

Lemma PercentageToCursorF_negative_witness :
  be_value (PercentageToCursorF (-50)%float) = MAX / 1000000 * 500000.
Proof.
  assert (E : scaled (-50)%float = -500000) by (vm_compute; reflexivity).
  assert (H : -1000000 <= scaled (-50)%float <= -3907) by (rewrite E; lia).
  pose proof (proj2 (PercentageToCursorF_negative (-50)%float H)) as Hv.
  rewrite E in Hv. exact Hv.
Defined.

(* ================================================================== *)
(** * The gate composed with the mappers *)

Lemma candidate_le (nodeID : NodeID) (rollout : Rollout) :
  length (Cursor rollout) = 32%nat ->
  isRolloutCandidate nodeID rollout = true
  <-> be_value (hmac.Sum (Seed rollout) nodeID) <= be_value (Cursor rollout).
Proof.
  intros Hwf. unfold isRolloutCandidate.
  assert (Hlen : length (hmac.Sum (Seed rollout) nodeID)
                 = length (Cursor rollout))
    by (rewrite hmac_Sum_length; symmetry; exact Hwf).
  destruct (bytes_Compare_be _ _ Hlen) as [Hle _].
  rewrite Z.leb_le. exact Hle.
Qed.

Lemma digest_range (key msg : list byte) :
  0 <= be_value (hmac.Sum key msg) <= MAX.
Proof.
  pose proof (be_value_range (hmac.Sum key msg)) as H.
  rewrite hmac_Sum_length in H.
  change (256 ^ Z.of_nat 32) with (MAX + 1) in H. lia.
Qed.

Lemma be_value_zero (l : list byte) :
  be_value l = 0 -> l = repeat x00 (length l).
Proof.
  induction l as [|b l IH]; [reflexivity|].
  rewrite be_value_cons. intros H.
  pose proof (byte_val_range b) as Hb.
  pose proof (be_value_range l) as Hl.
  assert (Hp : 0 < 256 ^ Z.of_nat (length l))
    by (apply Z.pow_pos_nonneg; lia).
  assert (Hb0 : byte_val b = 0) by nia.
  assert (Hl0 : be_value l = 0) by nia.
  cbn [length repeat]. f_equal.
  - apply byte_val_inj. rewrite Hb0. reflexivity.
  - apply IH, Hl0.
Qed.

(** X7.  The ends of a rollout.  With the legacy cursor of 100 percent
    every node is a candidate, whatever the seed; with the precise cursor
    of 100 percent, [floor(MAX/1000000) * 1000000 = MAX - 639935], a node
    is a candidate exactly when its digest is at most [MAX - 639935]; with
    the all-zero cursor of 0 percent a node is a candidate exactly when
    its digest is all zero. *)
Theorem isRolloutCandidate_extremes (nodeID : NodeID) (seed : RolloutBytes) :
  isRolloutCandidate nodeID
    {| Seed := seed; Cursor := PercentageToCursor 100 |} = true
  /\ (isRolloutCandidate nodeID
        {| Seed := seed; Cursor := PercentageToCursorF 100 |} = true
      <-> be_value (hmac.Sum seed nodeID) <= MAX - 639935)
  /\ (isRolloutCandidate nodeID
        {| Seed := seed; Cursor := PercentageToCursor 0 |} = true
      <-> hmac.Sum seed nodeID = zeroRolloutBytes).
Proof.
  pose proof (digest_range seed nodeID) as Hd.
  split; [|split].
  - apply candidate_le; [reflexivity|]. cbn [Seed Cursor].
    replace (be_value (PercentageToCursor 100)) with MAX
      by (vm_compute; reflexivity).
    lia.
  - rewrite candidate_le by (vm_compute; reflexivity). cbn [Seed Cursor].
    replace (be_value (PercentageToCursorF 100)) with (MAX - 639935)
      by (vm_compute; reflexivity).
    reflexivity.
  - rewrite candidate_le by reflexivity. cbn [Seed Cursor].
    replace (be_value (PercentageToCursor 0)) with 0 by reflexivity.
    split.
    + intros H. assert (H0 : be_value (hmac.Sum seed nodeID) = 0) by lia.
      apply be_value_zero in H0. rewrite hmac_Sum_length in H0. exact H0.
    + intros ->. reflexivity.
Qed.

(** X8.  A rollout only grows: a node that is a candidate at a legacy
    percentage [p1] stays one at every percentage [p2] with
    [0 <= p1 <= p2 <= 100], under the same seed. *)
Theorem isRolloutCandidate_grows (nodeID : NodeID) (seed : RolloutBytes)
    (p1 p2 : Z) :
  0 <= p1 <= p2 -> p2 <= 100 ->
  isRolloutCandidate nodeID
    {| Seed := seed; Cursor := PercentageToCursor p1 |} = true ->
  isRolloutCandidate nodeID
    {| Seed := seed; Cursor := PercentageToCursor p2 |} = true.
Proof.
  intros H12 H2.
  destruct (PercentageToCursor_value p1) as [Hl1 Hv1]; [lia|].
  destruct (PercentageToCursor_value p2) as [Hl2 Hv2]; [lia|].
  rewrite !candidate_le by assumption. cbn [Seed Cursor].
  rewrite Hv1, Hv2. intros H.
  apply Z.le_trans with (1 := H).
  apply Z.div_le_mono; [lia|]. unfold MAX. nia.
Qed.

Lemma isRolloutCandidate_grows_witness :
  isRolloutCandidate (repeat x01 32)
    {| Seed := zeroRolloutBytes; Cursor := PercentageToCursor 90 |} = true.
Proof.
  apply (isRolloutCandidate_grows (repeat x01 32) zeroRolloutBytes 75 90).
  - lia.
  - lia.
  - vm_compute. reflexivity.
Defined.

(** X9.  The two mappers at the same whole percentage.  When the scaled
    value of [pct] is exactly [10000 * p] for an integer [0 <= p <= 100],
    the precise cursor is below the legacy one by [floor(639935*p/100)],
    the part of [MAX] lost by dividing before multiplying; so every
    candidate under the precise cursor is one under the legacy cursor. *)
Theorem precise_below_legacy (pct : float) (p : Z) :
  0 <= p <= 100 -> scaled pct = 10000 * p ->
  be_value (PercentageToCursor p) - be_value (PercentageToCursorF pct)
  = 639935 * p / 100
  /\ forall nodeID seed,
       isRolloutCandidate nodeID
         {| Seed := seed; Cursor := PercentageToCursorF pct |} = true ->
       isRolloutCandidate nodeID
         {| Seed := seed; Cursor := PercentageToCursor p |} = true.
Proof.
  intros Hp Hk.
  destruct (PercentageToCursor_value p Hp) as [Hl Hv].
  assert (HF : length (PercentageToCursorF pct) = 32%nat
               /\ be_value (PercentageToCursorF pct)
                  = MAX / 1000000 * (10000 * p)).
  { destruct (Z.eq_dec p 0) as [-> | Hnz].
    - rewrite PercentageToCursorF_zero by exact Hk. split; reflexivity.
    - rewrite <- Hk. apply PercentageToCursorF_value. lia. }
  destruct HF as [HlF HvF].
  assert (Hdiff : MAX * p / 100
                  = MAX / 1000000 * (10000 * p) + 639935 * p / 100).
  { assert (E : MAX = MAX / 1000000 * 1000000 + 639935)
      by (vm_compute; reflexivity).
    rewrite E at 1.
    replace ((MAX / 1000000 * 1000000 + 639935) * p)
      with (MAX / 1000000 * (10000 * p) * 100 + 639935 * p) by ring.
    rewrite Z.div_add_l by lia. reflexivity. }
  split.
  - rewrite Hv, HvF, Hdiff. ring.
  - intros nodeID seed. rewrite !candidate_le by assumption.
    cbn [Seed Cursor]. rewrite Hv, HvF, Hdiff. intros H.
    assert (0 <= 639935 * p / 100) by (apply Z.div_pos; lia).
    lia.
Qed.

Lemma precise_below_legacy_witness :
  be_value (PercentageToCursor 50) - be_value (PercentageToCursorF 50)
  = 639935 * 50 / 100.
Proof.
  assert (Hp : 0 <= 50 <= 100) by lia.
  assert (Hk : scaled 50 = 10000 * 50) by (vm_compute; reflexivity).
  exact (proj1 (precise_below_legacy 50%float 50 Hp Hk)).
Defined.

(* ================================================================== *)
(** * The hex codec outside the well-formed texts *)

Lemma strip_ends_any (x y : byte) (text : list byte) :
  strip_ends (x :: text ++ [y]) = Returns text.
Proof.
  unfold strip_ends.
  assert (Hl : length (x :: text ++ [y]) = S (S (length text)))
    by (cbn [length]; rewrite length_app; cbn; lia).
  rewrite Hl. cbn [Nat.ltb Nat.leb skipn Nat.sub].
  rewrite Nat.sub_0_r.
  rewrite firstn_app, firstn_all, Nat.sub_diag. cbn [firstn].
  rewrite app_nil_r. reflexivity.
Qed.

(** X10.  [UnmarshalJSON] never looks at the first and the last byte of
    its input: whatever they are, the bytes between them are decoded as
    for a quoted string; an input of fewer than two bytes makes the slice
    expression panic. *)
Theorem UnmarshalJSON_delimiters (rb : RolloutBytes) (b : list byte) :
  (forall x y text,
      b = x :: text ++ [y] ->
      UnmarshalJSON rb b = UnmarshalJSON rb (json_string text))
  /\ ((length b < 2)%nat -> UnmarshalJSON rb b = Panics).
Proof.
  split.
  - intros x y text ->. unfold UnmarshalJSON.
    rewrite strip_ends_any, strip_ends_json_string. reflexivity.
  - intros Hl. unfold UnmarshalJSON, strip_ends.
    apply Nat.ltb_lt in Hl. rewrite Hl. reflexivity.
Qed.

Lemma UnmarshalJSON_delimiters_witness :
  UnmarshalJSON zeroRolloutBytes (str "[ff]")
  = UnmarshalJSON zeroRolloutBytes (json_string (str "ff"))
  /\ UnmarshalJSON zeroRolloutBytes [quote] = Panics.
Proof.
  destruct (UnmarshalJSON_delimiters zeroRolloutBytes (str "[ff]"))
    as [H _].
  destruct (UnmarshalJSON_delimiters zeroRolloutBytes [quote]) as [_ H'].
  split.
  - apply (H "["%byte "]"%byte (str "ff")). reflexivity.
  - apply H'. cbn. lia.
Defined.

(** Valid hex of more bytes than fit, followed by anything, panics. *)
Lemma Decode_from_overflow (src : list byte) :
  forall (bs dst : list byte) (i : nat) (rest : list byte),
    hex.denotes src = Some bs ->
    (i <= length dst)%nat -> (length dst < i + length bs)%nat ->
    hex.Decode_from dst i (src ++ rest) = Panics.
Proof.
  induction src as [| x | x y src IH] using pair_ind;
    intros bs dst i rest Hd Hi Hlen.
  - injection Hd as <-. cbn in Hlen. lia.
  - discriminate Hd.
  - cbn [hex.denotes] in Hd. cbn [app hex.Decode_from].
    destruct (hex.fromHexChar x) as [a|]; [|discriminate Hd].
    destruct (hex.fromHexChar y) as [c|]; [|discriminate Hd].
    destruct (hex.denotes src) as [bs'|] eqn:Hs; [|discriminate Hd].
    injection Hd as <-. cbn [length] in Hlen.
    destruct (i <? length dst)%nat eqn:E.
    + apply Nat.ltb_lt in E.
      apply (IH bs'); [reflexivity | rewrite store_length; lia
                      | rewrite store_length; lia].
    + reflexivity.
Qed.

(** X11.  A text that starts with more than 64 valid hex digits is not
    rejected with an error: the thirty-third byte is written past the end
    of the 32-byte array and [UnmarshalJSON] panics, whatever follows the
    digits. *)
Theorem UnmarshalJSON_overflow (rb : RolloutBytes)
    (digits rest bs : list byte) :
  wf_RolloutBytes rb ->
  hex.denotes digits = Some bs -> (32 < length bs)%nat ->
  UnmarshalJSON rb (json_string (digits ++ rest)) = Panics.
Proof.
  intros Hwf Hd Hl. unfold UnmarshalJSON, hex.Decode.
  rewrite strip_ends_json_string.
  rewrite (Decode_from_overflow digits bs rb 0 rest Hd);
    [reflexivity | lia | rewrite Hwf; cbn; lia].
Qed.

Lemma UnmarshalJSON_overflow_witness :
  UnmarshalJSON zeroRolloutBytes
    (json_string (hex.Encode (repeat xab 33) ++ str "zz")) = Panics.
Proof.
  apply (UnmarshalJSON_overflow zeroRolloutBytes
           (hex.Encode (repeat xab 33)) (str "zz") (repeat xab 33)).
  - reflexivity.
  - vm_compute. reflexivity.
  - cbn. lia.
Defined.

(** Valid hex that fits, followed by a pair that does not decode. *)
Lemma Decode_from_stops (src : list byte) :
  forall (bs dst : list byte) (i : nat) (tail : list byte) (e : hex.error),
    hex.denotes src = Some bs ->
    (i + length bs <= length dst)%nat ->
    (forall d n, hex.Decode_from d n tail = Returns (d, n, Some e)) ->
    hex.Decode_from dst i (src ++ tail)
    = Returns (firstn i dst ++ bs ++ skipn (i + length bs) dst,
               (i + length bs)%nat, Some e).
Proof.
  induction src as [| x | x y src IH] using pair_ind;
    intros bs dst i tail e Hd Hlen Ht.
  - injection Hd as <-. cbn [app length]. rewrite Nat.add_0_r.
    rewrite firstn_skipn. apply Ht.
  - discriminate Hd.
  - cbn [hex.denotes] in Hd. cbn [app hex.Decode_from].
    destruct (hex.fromHexChar x) as [a|]; [|discriminate Hd].
    destruct (hex.fromHexChar y) as [c|]; [|discriminate Hd].
    destruct (hex.denotes src) as [bs'|] eqn:Hs; [|discriminate Hd].
    injection Hd as <-. cbn [length] in Hlen.
    assert (Hi : (i < length dst)%nat) by lia.
    apply Nat.ltb_lt in Hi as Hb. rewrite Hb.
    rewrite (IH bs' _ (S i) tail e eq_refl)
      by (rewrite ?store_length; (lia || exact Ht)).
    rewrite store_firstn by exact Hi.
    replace (S i + length bs')%nat with (S i + length bs')%nat by lia.
    rewrite store_skipn. cbn [length].
    rewrite <- app_assoc. cbn [app].
    replace (i + S (length bs'))%nat with (S i + length bs')%nat by lia.
    reflexivity.
Qed.

(** X12.  An error does not leave the receiver untouched.  When the
    text is valid hex of [n <= 32] bytes followed by a character [z] that
    is no hex digit, alone or after one more hex digit, the first [n]
    bytes of the receiver have been overwritten when [UnmarshalJSON]
    returns the wrapped [InvalidByteError] of [z]; when it is followed by
    a single hex digit the error is [ErrLength], with the same bytes
    written. *)
Theorem UnmarshalJSON_partial_write (rb : RolloutBytes)
    (good bs rest : list byte) (p z : byte) :
  hex.denotes good = Some bs -> (length bs <= length rb)%nat ->
  hex.fromHexChar z = None -> hex.fromHexChar p <> None ->
  UnmarshalJSON rb (json_string (good ++ z :: rest))
  = Returns (copy rb bs, Some (VerError_hex (hex.InvalidByteError z)))
  /\ UnmarshalJSON rb (json_string (good ++ p :: z :: rest))
     = Returns (copy rb bs, Some (VerError_hex (hex.InvalidByteError z)))
  /\ UnmarshalJSON rb (json_string (good ++ [p]))
     = Returns (copy rb bs, Some (VerError_hex hex.ErrLength)).
Proof.
  intros Hd Hl Hz Hp.
  destruct (hex.fromHexChar p) as [a|] eqn:Ep; [|contradiction].
  assert (Hcopy : firstn 0 rb ++ bs ++ skipn (0 + length bs) rb = copy rb bs).
  { unfold copy. cbn [firstn app Nat.add].
    rewrite firstn_all2 by exact Hl. reflexivity. }
  unfold UnmarshalJSON, hex.Decode.
  rewrite !strip_ends_json_string.
  rewrite (Decode_from_stops good bs rb 0 (z :: rest)
             (hex.InvalidByteError z) Hd Hl).
  2:{ intros d n. destruct rest; cbn [hex.Decode_from]; rewrite Hz;
      reflexivity. }
  rewrite (Decode_from_stops good bs rb 0 (p :: z :: rest)
             (hex.InvalidByteError z) Hd Hl).
  2:{ intros d n. cbn [hex.Decode_from]. rewrite Ep, Hz. reflexivity. }
  rewrite (Decode_from_stops good bs rb 0 [p] hex.ErrLength Hd Hl).
  2:{ intros d n. cbn [hex.Decode_from]. rewrite Ep. reflexivity. }
  rewrite Hcopy. repeat split.
Qed.

Lemma UnmarshalJSON_partial_write_witness :
  UnmarshalJSON zeroRolloutBytes (json_string (str "abcdxy"))
  = Returns (xab :: xcd :: repeat x00 30,
             Some (VerError_hex (hex.InvalidByteError "x"))).
Proof.
  assert (Hd : hex.denotes (str "abcd") = Some [xab; xcd])
    by (vm_compute; reflexivity).
  assert (Hl : (length [xab; xcd] <= length zeroRolloutBytes)%nat)
    by (cbn; lia).
  assert (Hz : hex.fromHexChar "x" = None) by reflexivity.
  assert (Hp : hex.fromHexChar "0" <> None) by discriminate.
  exact (proj1 (UnmarshalJSON_partial_write zeroRolloutBytes
                  (str "abcd") [xab; xcd] (str "y") "0"%byte "x"%byte
                  Hd Hl Hz Hp)).
Defined.

Lemma fromHexChar_upper (c : byte) :
  hex.fromHexChar (hex_upper c) = hex.fromHexChar c
  /\ (hex.fromHexChar c = None -> hex_upper c = c).
Proof. destruct c; split; (reflexivity || discriminate). Qed.

Lemma Decode_from_upper (src : list byte) :
  forall (dst : list byte) (i : nat),
    hex.Decode_from dst i (map hex_upper src) = hex.Decode_from dst i src.
Proof.
  induction src as [| x | x y src IH] using pair_ind; intros dst i.
  - reflexivity.
  - cbn [map hex.Decode_from].
    destruct (fromHexChar_upper x) as [-> Hx].
    destruct (hex.fromHexChar x); [reflexivity|]. rewrite Hx; reflexivity.
  - cbn [map hex.Decode_from].
    destruct (fromHexChar_upper x) as [-> Hx].
    destruct (fromHexChar_upper y) as [-> Hy].
    destruct (hex.fromHexChar x); [|rewrite Hx; reflexivity].
    destruct (hex.fromHexChar y); [|rewrite Hy; reflexivity].
    destruct (i <? length dst)%nat; [apply IH | reflexivity].
Qed.

(** X13.  Decoding ignores the case of the hex digits: a text and its
    upper-case form have the same outcome on every receiver, so the
    upper-case digits of a cursor decode to that cursor, although
    [MarshalJSON] only ever writes lower-case ones. *)
Theorem UnmarshalJSON_ignores_case (rb : RolloutBytes) (text : list byte) :
  UnmarshalJSON rb (json_string (map hex_upper text))
  = UnmarshalJSON rb (json_string text)
  /\ forall c, length c = length rb ->
       UnmarshalJSON rb (json_string (map hex_upper (hex.Encode c)))
       = Returns (c, None).
Proof.
  assert (H : forall t, UnmarshalJSON rb (json_string (map hex_upper t))
                        = UnmarshalJSON rb (json_string t)).
  { intros t. unfold UnmarshalJSON, hex.Decode.
    rewrite !strip_ends_json_string, Decode_from_upper. reflexivity. }
  split; [apply H|].
  intros c Hc. rewrite H.
  rewrite (UnmarshalJSON_valid rb _ c (denotes_Encode c)) by lia.
  rewrite copy_same_length by exact Hc. reflexivity.
Qed.

(* ================================================================== *)
(** * The order of versions *)

Module order_facts.

Import semver.

(** What makes a three-way comparison [c] a total preorder. *)
Section Preorder.

Context {A : Type} (c : A -> A -> Z).
Hypothesis c_range : forall a b, c a b = -1 \/ c a b = 0 \/ c a b = 1.
Hypothesis c_antisym : forall a b, c b a = - c a b.
Hypothesis c_trans : forall a b d, c a b <= 0 -> c b d <= 0 -> c a d <= 0.

Lemma eq_left (a b d : A) : c a b = 0 -> c a d = c b d.
Proof.
  intros H.
  pose proof (c_range a d). pose proof (c_range b d).
  pose proof (c_antisym a b). pose proof (c_antisym a d).
  pose proof (c_antisym b d).
  pose proof (c_trans a b d). pose proof (c_trans b a d).
  pose proof (c_trans d b a). pose proof (c_trans d a b).
  lia.
Qed.

Lemma eq_right (a b d : A) : c b d = 0 -> c a d = c a b.
Proof.
  intros H.
  pose proof (c_range a d). pose proof (c_range a b).
  pose proof (c_antisym a b). pose proof (c_antisym a d).
  pose proof (c_antisym b d).
  pose proof (c_trans a b d). pose proof (c_trans a d b).
  pose proof (c_trans b a d). pose proof (c_trans d a b).
  pose proof (c_trans b d a). pose proof (c_trans d b a).
  lia.
Qed.

Lemma lt_trans (a b d : A) : c a b = -1 -> c b d = -1 -> c a d = -1.
Proof.
  intros H1 H2.
  pose proof (c_range a d).
  pose proof (c_antisym a b). pose proof (c_antisym a d).
  pose proof (c_antisym b d).
  pose proof (c_trans a b d). pose proof (c_trans d a b).
  lia.
Qed.

(** The lexicographic product with a second comparison. *)
Context (c2 : A -> A -> Z).
Hypothesis c2_range : forall a b, c2 a b = -1 \/ c2 a b = 0 \/ c2 a b = 1.
Hypothesis c2_antisym : forall a b, c2 b a = - c2 a b.
Hypothesis c2_trans :
  forall a b d, c2 a b <= 0 -> c2 b d <= 0 -> c2 a d <= 0.

Lemma lex_range (a b : A) :
  (if c a b =? 0 then c2 a b else c a b) = -1
  \/ (if c a b =? 0 then c2 a b else c a b) = 0
  \/ (if c a b =? 0 then c2 a b else c a b) = 1.
Proof.
  pose proof (c_range a b). pose proof (c2_range a b).
  destruct (Z.eqb_spec (c a b) 0); lia.
Qed.

Lemma lex_antisym (a b : A) :
  (if c b a =? 0 then c2 b a else c b a)
  = - (if c a b =? 0 then c2 a b else c a b).
Proof.
  rewrite (c_antisym a b), (c2_antisym a b).
  destruct (Z.eqb_spec (c a b) 0), (Z.eqb_spec (- c a b) 0); lia.
Qed.

Lemma lex_trans (a b d : A) :
  (if c a b =? 0 then c2 a b else c a b) <= 0 ->
  (if c b d =? 0 then c2 b d else c b d) <= 0 ->
  (if c a d =? 0 then c2 a d else c a d) <= 0.
Proof.
  pose proof (c_range a b) as Rab. pose proof (c_range b d) as Rbd.
  pose proof (eq_left a b d) as EL. pose proof (eq_right a b d) as ER.
  pose proof (lt_trans a b d) as LT.
  pose proof (c2_trans a b d) as T2.
  destruct (Z.eqb_spec (c a b) 0), (Z.eqb_spec (c b d) 0),
    (Z.eqb_spec (c a d) 0); lia.
Qed.

End Preorder.

Lemma bytes_Compare_range (a b : list byte) :
  bytes_Compare a b = -1 \/ bytes_Compare a b = 0 \/ bytes_Compare a b = 1.
Proof.
  revert b. induction a as [|x a IH]; intros [|y b]; cbn; auto.
  destruct (byte_val x <? byte_val y); auto.
  destruct (byte_val y <? byte_val x); auto.
Qed.

Lemma bytes_Compare_antisym (a b : list byte) :
  bytes_Compare b a = - bytes_Compare a b.
Proof.
  revert b. induction a as [|x a IH]; intros [|y b]; cbn; auto.
  destruct (Z.ltb_spec (byte_val x) (byte_val y)),
    (Z.ltb_spec (byte_val y) (byte_val x)); try lia; auto.
Qed.

Lemma bytes_Compare_trans (a b d : list byte) :
  bytes_Compare a b <= 0 -> bytes_Compare b d <= 0 -> bytes_Compare a d <= 0.
Proof.
  revert b d. induction a as [|x a IH]; intros [|y b] [|z d]; cbn; try lia.
  destruct (Z.ltb_spec (byte_val x) (byte_val y)),
    (Z.ltb_spec (byte_val y) (byte_val x)),
    (Z.ltb_spec (byte_val y) (byte_val z)),
    (Z.ltb_spec (byte_val z) (byte_val y)),
    (Z.ltb_spec (byte_val x) (byte_val z)),
    (Z.ltb_spec (byte_val z) (byte_val x)); try lia.
  apply IH.
Qed.

Lemma PRVersion_Compare_range (v o : PRVersion) :
  PRVersion_Compare v o = -1 \/ PRVersion_Compare v o = 0
  \/ PRVersion_Compare v o = 1.
Proof.
  unfold PRVersion_Compare.
  destruct (IsNum v), (IsNum o); cbn [andb negb]; auto.
  - destruct (VersionNum v =? VersionNum o)%N; auto.
    destruct (VersionNum o <? VersionNum v)%N; auto.
  - destruct (string_eq _ _); auto. destruct (string_gt _ _); auto.
Qed.

Lemma PRVersion_Compare_antisym (v o : PRVersion) :
  PRVersion_Compare o v = - PRVersion_Compare v o.
Proof.
  unfold PRVersion_Compare, string_eq, string_gt.
  destruct (IsNum v), (IsNum o); cbn [andb negb]; auto.
  - destruct (N.eqb_spec (VersionNum v) (VersionNum o)),
      (N.eqb_spec (VersionNum o) (VersionNum v)),
      (N.ltb_spec (VersionNum o) (VersionNum v)),
      (N.ltb_spec (VersionNum v) (VersionNum o)); lia.
  - rewrite (bytes_Compare_antisym (VersionStr v) (VersionStr o)).
    pose proof (bytes_Compare_range (VersionStr v) (VersionStr o)) as R.
    destruct R as [-> | [-> | ->]]; reflexivity.
Qed.

Lemma PRVersion_Compare_trans (a b d : PRVersion) :
  PRVersion_Compare a b <= 0 -> PRVersion_Compare b d <= 0 ->
  PRVersion_Compare a d <= 0.
Proof.
  unfold PRVersion_Compare, string_eq, string_gt.
  destruct (IsNum a), (IsNum b), (IsNum d); cbn [andb negb]; try lia.
  - destruct (N.eqb_spec (VersionNum a) (VersionNum b)),
      (N.ltb_spec (VersionNum b) (VersionNum a)),
      (N.eqb_spec (VersionNum b) (VersionNum d)),
      (N.ltb_spec (VersionNum d) (VersionNum b)),
      (N.eqb_spec (VersionNum a) (VersionNum d)),
      (N.ltb_spec (VersionNum d) (VersionNum a)); lia.
  - pose proof (bytes_Compare_trans (VersionStr a) (VersionStr b)
                  (VersionStr d)) as T.
    pose proof (bytes_Compare_range (VersionStr a) (VersionStr b)) as R1.
    pose proof (bytes_Compare_range (VersionStr b) (VersionStr d)) as R2.
    pose proof (bytes_Compare_range (VersionStr a) (VersionStr d)) as R3.
    destruct (Z.eqb_spec (bytes_Compare (VersionStr a) (VersionStr b)) 0),
      (Z.ltb_spec 0 (bytes_Compare (VersionStr a) (VersionStr b))),
      (Z.eqb_spec (bytes_Compare (VersionStr b) (VersionStr d)) 0),
      (Z.ltb_spec 0 (bytes_Compare (VersionStr b) (VersionStr d))),
      (Z.eqb_spec (bytes_Compare (VersionStr a) (VersionStr d)) 0),
      (Z.ltb_spec 0 (bytes_Compare (VersionStr a) (VersionStr d))); lia.
Qed.

(** The prerelease loop is the lexicographic order of the identifiers,
    a proper prefix coming first. *)
Lemma Compare_pre_cons (v o : PRVersion) (vp op : list PRVersion) :
  Compare_pre (v :: vp) (o :: op)
  = if PRVersion_Compare v o =? 0 then Compare_pre vp op
    else PRVersion_Compare v o.
Proof.
  cbn [Compare_pre].
  destruct (PRVersion_Compare_range v o) as [-> | [-> | ->]]; reflexivity.
Qed.

Lemma Compare_pre_range (vp op : list PRVersion) :
  Compare_pre vp op = -1 \/ Compare_pre vp op = 0 \/ Compare_pre vp op = 1.
Proof.
  revert op. induction vp as [|v vp IH]; intros [|o op]; cbn; auto.
  destruct (PRVersion_Compare v o =? 0); [apply IH|].
  destruct (PRVersion_Compare v o =? 1); auto.
Qed.

Lemma Compare_pre_antisym (vp op : list PRVersion) :
  Compare_pre op vp = - Compare_pre vp op.
Proof.
  revert op. induction vp as [|v vp IH]; intros [|o op];
    try reflexivity.
  rewrite !Compare_pre_cons, (PRVersion_Compare_antisym v o).
  destruct (PRVersion_Compare_range v o) as [-> | [-> | ->]];
    cbn; auto.
Qed.

Lemma Compare_pre_trans (a b d : list PRVersion) :
  Compare_pre a b <= 0 -> Compare_pre b d <= 0 -> Compare_pre a d <= 0.
Proof.
  revert b d. induction a as [|x a IH]; intros [|y b] [|z d];
    try (cbn; lia).
  rewrite !Compare_pre_cons.
  pose proof (PRVersion_Compare_range x y) as Rxy.
  pose proof (PRVersion_Compare_range y z) as Ryz.
  pose proof (eq_left PRVersion_Compare PRVersion_Compare_range
                PRVersion_Compare_antisym PRVersion_Compare_trans x y z)
    as EL.
  pose proof (eq_right PRVersion_Compare PRVersion_Compare_range
                PRVersion_Compare_antisym PRVersion_Compare_trans x y z)
    as ER.
  pose proof (lt_trans PRVersion_Compare PRVersion_Compare_range
                PRVersion_Compare_antisym PRVersion_Compare_trans x y z)
    as LT.
  pose proof (IH b d) as IH'.
  destruct (Z.eqb_spec (PRVersion_Compare x y) 0),
    (Z.eqb_spec (PRVersion_Compare y z) 0),
    (Z.eqb_spec (PRVersion_Compare x z) 0); lia.
Qed.

(** Comparing one numeric field [f] of two versions. *)
Section Field.

Variable f : Version -> N.

Lemma field_range (v o : Version) :
  (if (f v =? f o)%N then 0 else cmpN (f v) (f o)) = -1
  \/ (if (f v =? f o)%N then 0 else cmpN (f v) (f o)) = 0
  \/ (if (f v =? f o)%N then 0 else cmpN (f v) (f o)) = 1.
Proof.
  unfold cmpN. destruct (f v =? f o)%N; auto.
  destruct (f o <? f v)%N; auto.
Qed.

Lemma field_antisym (v o : Version) :
  (if (f o =? f v)%N then 0 else cmpN (f o) (f v))
  = - (if (f v =? f o)%N then 0 else cmpN (f v) (f o)).
Proof.
  unfold cmpN.
  destruct (N.eqb_spec (f v) (f o)), (N.eqb_spec (f o) (f v)),
    (N.ltb_spec (f o) (f v)), (N.ltb_spec (f v) (f o)); lia.
Qed.

Lemma field_trans (a b d : Version) :
  (if (f a =? f b)%N then 0 else cmpN (f a) (f b)) <= 0 ->
  (if (f b =? f d)%N then 0 else cmpN (f b) (f d)) <= 0 ->
  (if (f a =? f d)%N then 0 else cmpN (f a) (f d)) <= 0.
Proof.
  unfold cmpN.
  destruct (N.eqb_spec (f a) (f b)), (N.ltb_spec (f b) (f a)),
    (N.eqb_spec (f b) (f d)), (N.ltb_spec (f d) (f b)),
    (N.eqb_spec (f a) (f d)), (N.ltb_spec (f d) (f a)); lia.
Qed.

End Field.

(** The last step of [Compare]: a version without prerelease is above
    one with, otherwise the prerelease loop decides. *)
Lemma pre_range (v o : Version) :
  match Pre v, Pre o with
  | [], [] => 0 | [], _ :: _ => 1 | _ :: _, [] => -1
  | _ :: _, _ :: _ => Compare_pre (Pre v) (Pre o)
  end = -1
  \/ match Pre v, Pre o with
     | [], [] => 0 | [], _ :: _ => 1 | _ :: _, [] => -1
     | _ :: _, _ :: _ => Compare_pre (Pre v) (Pre o)
     end = 0
  \/ match Pre v, Pre o with
     | [], [] => 0 | [], _ :: _ => 1 | _ :: _, [] => -1
     | _ :: _, _ :: _ => Compare_pre (Pre v) (Pre o)
     end = 1.
Proof.
  destruct (Pre v), (Pre o); auto. apply Compare_pre_range.
Qed.

Lemma pre_antisym (v o : Version) :
  match Pre o, Pre v with
  | [], [] => 0 | [], _ :: _ => 1 | _ :: _, [] => -1
  | _ :: _, _ :: _ => Compare_pre (Pre o) (Pre v)
  end
  = - match Pre v, Pre o with
      | [], [] => 0 | [], _ :: _ => 1 | _ :: _, [] => -1
      | _ :: _, _ :: _ => Compare_pre (Pre v) (Pre o)
      end.
Proof.
  destruct (Pre v), (Pre o); auto. apply Compare_pre_antisym.
Qed.

Lemma pre_trans (a b d : Version) :
  match Pre a, Pre b with
  | [], [] => 0 | [], _ :: _ => 1 | _ :: _, [] => -1
  | _ :: _, _ :: _ => Compare_pre (Pre a) (Pre b)
  end <= 0 ->
  match Pre b, Pre d with
  | [], [] => 0 | [], _ :: _ => 1 | _ :: _, [] => -1
  | _ :: _, _ :: _ => Compare_pre (Pre b) (Pre d)
  end <= 0 ->
  match Pre a, Pre d with
  | [], [] => 0 | [], _ :: _ => 1 | _ :: _, [] => -1
  | _ :: _, _ :: _ => Compare_pre (Pre a) (Pre d)
  end <= 0.
Proof.
  destruct (Pre a), (Pre b), (Pre d); try lia. apply Compare_pre_trans.
Qed.

(** [Compare] is the lexicographic product of its four steps. *)
Lemma Compare_lex (v o : Version) :
  semver.Compare v o
  = let c1 := if (Major v =? Major o)%N then 0
              else cmpN (Major v) (Major o) in
    let c2 := if (Minor v =? Minor o)%N then 0
              else cmpN (Minor v) (Minor o) in
    let c3 := if (Patch v =? Patch o)%N then 0
              else cmpN (Patch v) (Patch o) in
    let c4 := match Pre v, Pre o with
              | [], [] => 0 | [], _ :: _ => 1 | _ :: _, [] => -1
              | _ :: _, _ :: _ => Compare_pre (Pre v) (Pre o)
              end in
    if c1 =? 0 then if c2 =? 0 then if c3 =? 0 then c4 else c3 else c2
    else c1.
Proof.
  unfold semver.Compare, cmpN. cbv zeta.
  destruct (Major v =? Major o)%N; cbn [negb];
    [|destruct (Major o <? Major v)%N; reflexivity].
  destruct (Minor v =? Minor o)%N; cbn [negb];
    [|destruct (Minor o <? Minor v)%N; reflexivity].
  destruct (Patch v =? Patch o)%N; cbn [negb];
    [|destruct (Patch o <? Patch v)%N; reflexivity].
  reflexivity.
Qed.

Lemma Compare_preorder :
  (forall v o, semver.Compare v o = -1 \/ semver.Compare v o = 0
               \/ semver.Compare v o = 1)
  /\ (forall v o, semver.Compare o v = - semver.Compare v o)
  /\ (forall a b d, semver.Compare a b <= 0 -> semver.Compare b d <= 0 ->
                    semver.Compare a d <= 0).
Proof.
  pose (c1 := fun v o : Version =>
                if (Major v =? Major o)%N then 0
                else cmpN (Major v) (Major o)).
  pose (c2 := fun v o : Version =>
                if (Minor v =? Minor o)%N then 0
                else cmpN (Minor v) (Minor o)).
  pose (c3 := fun v o : Version =>
                if (Patch v =? Patch o)%N then 0
                else cmpN (Patch v) (Patch o)).
  pose (c4 := fun v o : Version =>
                match Pre v, Pre o with
                | [], [] => 0 | [], _ :: _ => 1 | _ :: _, [] => -1
                | _ :: _, _ :: _ => Compare_pre (Pre v) (Pre o)
                end).
  pose (c34 := fun v o => if c3 v o =? 0 then c4 v o else c3 v o).
  pose (c234 := fun v o => if c2 v o =? 0 then c34 v o else c2 v o).
  assert (E : forall v o,
             semver.Compare v o
             = if c1 v o =? 0 then c234 v o else c1 v o)
    by (intros v o; apply Compare_lex).
  assert (R34 : forall a b, c34 a b = -1 \/ c34 a b = 0 \/ c34 a b = 1)
    by (intros a b; apply (lex_range c3 (field_range Patch) c4 pre_range)).
  assert (A34 : forall a b, c34 b a = - c34 a b)
    by (intros a b;
        apply (lex_antisym c3 (field_antisym Patch) c4 pre_antisym)).
  assert (T34 : forall a b d, c34 a b <= 0 -> c34 b d <= 0 -> c34 a d <= 0)
    by (intros a b d;
        apply (lex_trans c3 (field_range Patch) (field_antisym Patch)
                 (field_trans Patch) c4 pre_trans)).
  assert (R234 : forall a b, c234 a b = -1 \/ c234 a b = 0 \/ c234 a b = 1)
    by (intros a b; apply (lex_range c2 (field_range Minor) c34 R34)).
  assert (A234 : forall a b, c234 b a = - c234 a b)
    by (intros a b; apply (lex_antisym c2 (field_antisym Minor) c34 A34)).
  assert (T234 : forall a b d,
             c234 a b <= 0 -> c234 b d <= 0 -> c234 a d <= 0)
    by (intros a b d;
        apply (lex_trans c2 (field_range Minor) (field_antisym Minor)
                 (field_trans Minor) c34 T34)).
  split; [|split].
  - intros v o. rewrite E.
    apply (lex_range c1 (field_range Major) c234 R234).
  - intros v o. rewrite !E.
    apply (lex_antisym c1 (field_antisym Major) c234 A234).
  - intros a b d. rewrite !E.
    apply (lex_trans c1 (field_range Major) (field_antisym Major)
             (field_trans Major) c234 T234).
Qed.

End order_facts.

(** X14.  [Compare] is a three-way comparison: its result is -1, 0 or 1,
    a version compares equal to itself, swapping the arguments negates
    the result, and the build metadata of neither version is looked
    at. *)
Theorem Compare_three_way (a b : SemVer) :
  (Compare a b = -1 \/ Compare a b = 0 \/ Compare a b = 1)
  /\ Compare a a = 0
  /\ Compare b a = - Compare a b
  /\ Compare (without_build a) (without_build b) = Compare a b.
Proof.
  destruct order_facts.Compare_preorder as (R & A & _).
  unfold Compare. split; [apply R|]. split; [|split; [apply A|]].
  - pose proof (A a a). lia.
  - reflexivity.
Qed.

(** X15.  [Compare] orders the versions: from [a <= b] and [b <= c]
    follows [a <= c], and the conclusion is strict as soon as one of the
    two steps is. *)
Theorem Compare_transitive (a b c : SemVer) :
  Compare a b <= 0 -> Compare b c <= 0 ->
  Compare a c <= 0
  /\ (Compare a b < 0 \/ Compare b c < 0 -> Compare a c < 0).
Proof.
  destruct order_facts.Compare_preorder as (R & A & T).
  unfold Compare. intros Hab Hbc. split; [apply (T a b c Hab Hbc)|].
  pose proof (T a b c Hab Hbc) as Hac.
  pose proof (A a b) as Aab. pose proof (A b c) as Abc.
  pose proof (A a c) as Aac.
  pose proof (T c a b) as T1. pose proof (T b c a) as T2.
  lia.
Qed.

Lemma Compare_transitive_witness :
  Compare (fst (NewSemVer (str "v1.2.3-rc")))
          (fst (NewSemVer (str "v1.3.0"))) <= 0.
Proof.
  apply (Compare_transitive (fst (NewSemVer (str "v1.2.3-rc")))
           (fst (NewSemVer (str "v1.2.3")))
           (fst (NewSemVer (str "v1.3.0")))); vm_compute; discriminate.
Defined.

(* ================================================================== *)
(** * The update decision along the order of versions *)

Lemma reasons_differ :
  reason_up_to_date <> reason_below_minimum
  /\ reason_up_to_date <> reason_candidate
  /\ reason_up_to_date <> reason_pending
  /\ reason_below_minimum <> reason_candidate
  /\ reason_below_minimum <> reason_pending
  /\ reason_candidate <> reason_pending.
Proof. repeat split; intros H; vm_compute in H; discriminate H. Qed.

(** X16.  The decision follows the order of the versions.  If a version
    is told it is up to date, so is every version at or above it; if a
    version is sent to the minimum, so is every version at or below it,
    whatever the node and the rollout. *)
Theorem ShouldUpdateVersion_monotone
        (older newer : SemVer) (nodeID nodeID' : NodeID)
        (requested : Process) :
  Compare older newer <= 0 ->
  (ShouldUpdateVersion older nodeID requested
   = (Version_zero, reason_up_to_date, None) ->
   ShouldUpdateVersion newer nodeID' requested
   = (Version_zero, reason_up_to_date, None))
  /\ (ShouldUpdateVersion newer nodeID requested
      = (Minimum requested, reason_below_minimum, None) ->
      ShouldUpdateVersion older nodeID' requested
      = (Minimum requested, reason_below_minimum, None)).
Proof.
  destruct order_facts.Compare_preorder as (R & A & T).
  destruct reasons_differ as (D1 & D2 & D3 & D4 & D5 & _).
  assert (Hr : forall (u u' : Version) (r r' : list byte),
             r <> r' -> r' <> r ->
             (u, r, @None error) = (u', r', None) -> False)
    by (intros u u' r r' Hne _ H; injection H as _ H'; exact (Hne H')).
  intros Hle. unfold Compare in Hle.
  unfold ShouldUpdateVersion, Version_SemVer, Compare.
  destruct (NewSemVer (Version_ (Suggested requested))) as [sv [es|]];
    [split; discriminate|].
  pose proof (A older sv) as Aos. pose proof (A newer sv) as Ans.
  pose proof (T sv older newer) as Tson.
  destruct (Z.leb_spec 0 (semver.Compare older sv)) as [Ho | Ho];
    destruct (Z.leb_spec 0 (semver.Compare newer sv)) as [Hn | Hn];
    try lia.
  - split; [reflexivity|]. intros H. exfalso.
    apply (Hr _ _ _ _ D1) in H; [exact H | congruence].
  - split; [reflexivity|]. intros H. exfalso.
    apply (Hr _ _ _ _ D1) in H; [exact H | congruence].
  - destruct (NewSemVer (Version_ (Minimum requested))) as [mv [em|]];
      [split; discriminate|].
    pose proof (A older mv) as Aom. pose proof (A newer mv) as Anm.
    pose proof (T mv older newer) as Tmon.
    split.
    + intros H. exfalso. revert H.
      destruct (semver.Compare older mv <? 0);
        [|destruct (isRolloutCandidate nodeID (Rollout_ requested))];
        intros H; eapply Hr in H; try exact H; congruence.
    + destruct (Z.ltb_spec (semver.Compare newer mv) 0) as [Hm | Hm].
      * destruct (Z.ltb_spec (semver.Compare older mv) 0); [reflexivity|].
        lia.
      * intros H. exfalso. revert H.
        destruct (isRolloutCandidate nodeID (Rollout_ requested));
          intros H; eapply Hr in H; try exact H; congruence.
Qed.

Lemma ShouldUpdateVersion_monotone_witness :
  let requested :=
    {| Minimum := {| Version_ := str "v1.0.0"; URL := str "min" |};
       Suggested := {| Version_ := str "v1.1.0"; URL := str "sug" |};
       Rollout_ := {| Seed := zeroRolloutBytes;
                      Cursor := zeroRolloutBytes |} |} in
  ShouldUpdateVersion (fst (NewSemVer (str "v0.9.0-rc"))) [] requested
  = (Minimum requested, reason_below_minimum, None).
Proof.
  intros requested.
  assert (Hle : Compare (fst (NewSemVer (str "v0.9.0-rc")))
                        (fst (NewSemVer (str "v0.9.5"))) <= 0)
    by (vm_compute; discriminate).
  apply (proj2 (ShouldUpdateVersion_monotone _ _ (repeat x01 32) []
                  requested Hle)).
  vm_compute. reflexivity.
Defined.

(* ================================================================== *)
(** * Short versions and the old version type *)

Module short_facts.

Import strings semver strings_facts semver_facts.

Lemma digits_no_meta (s : list byte) :
  forallb strconv.is_digit s = true -> ContainsAny s (str "+-") = false.
Proof.
  induction s as [|x s IH]; intros H; [reflexivity|].
  cbn [forallb] in H. apply andb_prop in H as [Hx Hs].
  destruct (digit_classes x Hx) as (_ & _ & _ & Hm & Hp).
  unfold ContainsAny in *. cbn [existsb]. rewrite (IH Hs).
  change (str "+-") with ["+"%byte; "-"%byte].
  unfold ContainsByte. cbn [existsb]. rewrite Hm, Hp. reflexivity.
Qed.

Lemma FormatUint_0 : strconv.FormatUint 0 = str "0".
Proof. reflexivity. Qed.

Lemma trim_v (t : list byte) :
  t <> [] -> containsOnly t alphanum = true ->
  TrimPrefix (TrimSpace ("v"%byte :: t)) (str "v") = t.
Proof.
  intros Hne Ha. destruct (ends_alphanum t Hne Ha) as (w & c & -> & Hc).
  rewrite (TrimSpace_version w c Hc). reflexivity.
Qed.

Lemma ParseTolerant_major (M : N) :
  (M <= strconv.maxUint64)%N ->
  ParseTolerant ("v"%byte :: strconv.FormatUint M)
  = inl {| Major := M; Minor := 0; Patch := 0; Pre := []; Build := [] |}.
Proof.
  intros HM.
  destruct (strconv_facts.FormatUint_spec M HM) as (Hd & _ & _ & Hne).
  destruct (digits_no _ Hd) as (H1 & _ & _).
  unfold ParseTolerant.
  rewrite (trim_v _ Hne (digits_alphanum _ Hd)). cbv zeta.
  assert (Hs : SplitN (strconv.FormatUint M) "." 3 = [strconv.FormatUint M])
    by (cbn [SplitN]; rewrite H1; reflexivity).
  rewrite Hs. cbn [length Nat.ltb Nat.leb last].
  rewrite (digits_no_meta _ Hd).
  cbn [Nat.sub repeat app Join]. change (str ".") with ["."%byte].
  cbn [app]. rewrite <- FormatUint_0.
  rewrite <- (app_nil_r (strconv.FormatUint 0)) at 2.
  apply (round_trip.Parse_printed M 0 0 []); (assumption || apply N.le_0_l
    || reflexivity || (cbn; lia)).
Qed.

Lemma ParseTolerant_major_minor (M m : N) :
  (M <= strconv.maxUint64)%N -> (m <= strconv.maxUint64)%N ->
  ParseTolerant ("v"%byte :: strconv.FormatUint M
                 ++ "."%byte :: strconv.FormatUint m)
  = inl {| Major := M; Minor := m; Patch := 0; Pre := []; Build := [] |}.
Proof.
  intros HM Hm.
  destruct (strconv_facts.FormatUint_spec M HM) as (HdM & _ & _ & HneM).
  destruct (strconv_facts.FormatUint_spec m Hm) as (Hdm & _ & _ & Hnem).
  destruct (digits_no _ HdM) as (HM1 & _ & _).
  destruct (digits_no _ Hdm) as (Hm1 & _ & _).
  unfold ParseTolerant.
  destruct (ends_alphanum _ Hnem (digits_alphanum _ Hdm))
    as (w & c & Hw & Hc).
  assert (Ht : TrimSpace ("v"%byte :: strconv.FormatUint M
                          ++ "."%byte :: strconv.FormatUint m)
               = "v"%byte :: strconv.FormatUint M
                 ++ "."%byte :: strconv.FormatUint m).
  { rewrite Hw.
    replace (strconv.FormatUint M ++ "."%byte :: w ++ [c])
      with ((strconv.FormatUint M ++ "."%byte :: w) ++ [c])
      by (rewrite <- app_assoc; reflexivity).
    apply (TrimSpace_version _ c Hc). }
  rewrite Ht.
  change (TrimPrefix ("v"%byte :: ?x) (str "v")) with x.
  cbv zeta.
  assert (Hs : SplitN (strconv.FormatUint M
                       ++ "."%byte :: strconv.FormatUint m) "." 3
               = [strconv.FormatUint M; strconv.FormatUint m]).
  { cbn [SplitN]. rewrite (IndexByte_app_hit _ _ _ HM1).
    rewrite firstn_length_app, skipn_length_app, Hm1. reflexivity. }
  rewrite Hs. cbn [length Nat.ltb Nat.leb last].
  rewrite (digits_no_meta _ Hdm).
  cbn [Nat.sub repeat app Join]. change (str ".") with ["."%byte].
  cbn [app]. rewrite <- FormatUint_0.
  rewrite <- (app_nil_r (strconv.FormatUint 0)).
  apply (round_trip.Parse_printed M m 0 []); (assumption || apply N.le_0_l
    || reflexivity || (cbn; lia)).
Qed.

End short_facts.

Module meta_facts.

Import strings semver strings_facts semver_facts.

Lemma hyphen_tail (t : list byte) :
  containsOnly t alphanum = true ->
  containsOnly ("-"%byte :: t) alphanum = true
  /\ IndexByte ("-"%byte :: t) "." = None
  /\ ContainsAny ("-"%byte :: t) (str "+-") = true.
Proof.
  intros Ht.
  assert (Ha : containsOnly ("-"%byte :: t) alphanum = true)
    by (unfold containsOnly in *; cbn [forallb]; rewrite Ht; reflexivity).
  split; [exact Ha|]. split; [apply (alphanum_no _ Ha)|]. reflexivity.
Qed.

Lemma ContainsAny_app (a b chars : list byte) :
  ContainsAny b chars = true -> ContainsAny (a ++ b) chars = true.
Proof.
  unfold ContainsAny. intros H. rewrite existsb_app, H.
  apply orb_true_r.
Qed.

Lemma trim_meta (a t : list byte) :
  containsOnly t alphanum = true ->
  TrimPrefix (TrimSpace ("v"%byte :: a ++ "-"%byte :: t)) (str "v")
  = a ++ "-"%byte :: t.
Proof.
  intros Ht. destruct (hyphen_tail t Ht) as (Ha & _ & _).
  destruct (ends_alphanum ("-"%byte :: t) ltac:(discriminate) Ha)
    as (w & c & Hw & Hc).
  rewrite Hw, app_assoc, (TrimSpace_version (a ++ w) c Hc). reflexivity.
Qed.

Lemma ParseTolerant_meta1 (a t : list byte) :
  IndexByte a "." = None -> containsOnly t alphanum = true ->
  ParseTolerant ("v"%byte :: a ++ "-"%byte :: t) = inr ErrShortVersionMeta.
Proof.
  intros Ha Ht. destruct (hyphen_tail t Ht) as (_ & Hd & Hc).
  unfold ParseTolerant. rewrite (trim_meta a t Ht). cbv zeta.
  assert (Hs : SplitN (a ++ "-"%byte :: t) "." 3 = [a ++ "-"%byte :: t])
    by (cbn [SplitN]; rewrite (IndexByte_app_miss _ _ _ Ha Hd);
        reflexivity).
  rewrite Hs. cbn [length Nat.ltb Nat.leb last].
  rewrite (ContainsAny_app a _ _ Hc). reflexivity.
Qed.

Lemma ParseTolerant_meta2 (a b t : list byte) :
  IndexByte a "." = None -> IndexByte b "." = None ->
  containsOnly t alphanum = true ->
  ParseTolerant ("v"%byte :: a ++ "."%byte :: b ++ "-"%byte :: t)
  = inr ErrShortVersionMeta.
Proof.
  intros Ha Hb Ht. destruct (hyphen_tail t Ht) as (_ & Hd & Hc).
  unfold ParseTolerant.
  replace (a ++ "."%byte :: b ++ "-"%byte :: t)
    with ((a ++ "."%byte :: b) ++ "-"%byte :: t)
    by (rewrite <- app_assoc; reflexivity).
  rewrite (trim_meta _ t Ht). cbv zeta.
  rewrite <- app_assoc. cbn [app].
  assert (Hs : SplitN (a ++ "."%byte :: b ++ "-"%byte :: t) "." 3
               = [a; b ++ "-"%byte :: t]).
  { cbn [SplitN]. rewrite (IndexByte_app_hit _ _ _ Ha).
    rewrite firstn_length_app, skipn_length_app.
    rewrite (IndexByte_app_miss _ _ _ Hb Hd). reflexivity. }
  rewrite Hs. cbn [length Nat.ltb Nat.leb last].
  rewrite (ContainsAny_app b _ _ Hc). reflexivity.
Qed.

End meta_facts.

(** X17.  [NewSemVer] fills a short version with zeros: after the
    prefix [v], a major number alone, or a major and a minor number, parse
    to the version with the missing numbers 0 and no prerelease. *)
Theorem NewSemVer_short (M m : N) :
  (M <= strconv.maxUint64)%N -> (m <= strconv.maxUint64)%N ->
  NewSemVer (str "v" ++ strconv.FormatUint M)
  = ({| semver.Major := M; semver.Minor := 0; semver.Patch := 0;
        semver.Pre := []; semver.Build := [] |}, None)
  /\ NewSemVer (str "v" ++ strconv.FormatUint M
                ++ str "." ++ strconv.FormatUint m)
     = ({| semver.Major := M; semver.Minor := m; semver.Patch := 0;
           semver.Pre := []; semver.Build := [] |}, None).
Proof.
  intros HM Hm. unfold NewSemVer.
  change (str "v") with ["v"%byte]. change (str ".") with ["."%byte].
  cbn [app].
  rewrite (short_facts.ParseTolerant_major M HM).
  rewrite (short_facts.ParseTolerant_major_minor M m HM Hm).
  split; reflexivity.
Qed.

Lemma NewSemVer_short_witness :
  NewSemVer (str "v" ++ strconv.FormatUint 1 ++ str "."
             ++ strconv.FormatUint 25)
  = ({| semver.Major := 1; semver.Minor := 25; semver.Patch := 0;
        semver.Pre := []; semver.Build := [] |}, None).
Proof.
  assert (H1 : (1 <= strconv.maxUint64)%N) by (vm_compute; discriminate).
  assert (H2 : (25 <= strconv.maxUint64)%N) by (vm_compute; discriminate).
  exact (proj2 (NewSemVer_short 1 25 H1 H2)).
Defined.

(** X18.  A short version cannot carry a prerelease: a text of one or
    two dot-free fields after the prefix [v], followed by a hyphen and an
    identifier, is rejected with the short-version error and the zero
    version, although the same identifier is accepted after three
    numbers. *)
Theorem NewSemVer_short_meta (a b t : list byte) :
  strings.IndexByte a "." = None -> strings.IndexByte b "." = None ->
  semver.containsOnly t semver.alphanum = true ->
  NewSemVer (str "v" ++ a ++ str "-" ++ t)
  = (semver.zero, Some (VerError_semver ErrShortVersionMeta))
  /\ NewSemVer (str "v" ++ a ++ str "." ++ b ++ str "-" ++ t)
     = (semver.zero, Some (VerError_semver ErrShortVersionMeta)).
Proof.
  intros Ha Hb Ht. unfold NewSemVer.
  change (str "v") with ["v"%byte]. change (str ".") with ["."%byte].
  change (str "-") with ["-"%byte]. cbn [app].
  rewrite (meta_facts.ParseTolerant_meta1 a t Ha Ht).
  rewrite (meta_facts.ParseTolerant_meta2 a b t Ha Hb Ht).
  split; reflexivity.
Qed.

Lemma NewSemVer_short_meta_witness :
  NewSemVer (str "v1.2-rc")
  = (semver.zero, Some (VerError_semver ErrShortVersionMeta)).
Proof.
  assert (Ha : strings.IndexByte (str "1") "." = None) by reflexivity.
  assert (Hb : strings.IndexByte (str "2") "." = None) by reflexivity.
  assert (Ht : semver.containsOnly (str "rc") semver.alphanum = true)
    by reflexivity.
  exact (proj2 (NewSemVer_short_meta (str "1") (str "2") (str "rc")
                  Ha Hb Ht)).
Defined.

(* ================================================================== *)
(** * OldSemVer *)

Lemma int64_of_uint64_small (z : Z) :
  0 <= z < 2 ^ 63 -> int64_of_uint64 (Z.to_N z) = z.
Proof.
  intros Hz. unfold int64_of_uint64. rewrite Z2N.id by lia.
  rewrite Z.mod_small by lia.
  destruct (Z.ltb_spec z (2 ^ 63)); lia.
Qed.

Lemma FormatInt_nonneg (z : Z) :
  0 <= z -> FormatInt z = strconv.FormatUint (Z.to_N z).
Proof.
  intros Hz. unfold FormatInt. destruct (Z.ltb_spec z 0); [lia|reflexivity].
Qed.

Lemma to_N_max (z : Z) :
  0 <= z < 2 ^ 63 -> (Z.to_N z <= strconv.maxUint64)%N.
Proof.
  intros Hz. unfold strconv.maxUint64.
  change (2 ^ 64 - 1)%N with (Z.to_N (2 ^ 64 - 1)).
  apply Z2N.inj_le; lia.
Qed.

(** X19.  The old version type round-trips: for fields within
    [0, 2^63), parsing the string of an [OldSemVer] gives it back with a
    nil error. *)
Theorem NewOldSemVer_round_trip (old : OldSemVer) :
  0 <= Old_Major old < 2 ^ 63 -> 0 <= Old_Minor old < 2 ^ 63 ->
  0 <= Old_Patch old < 2 ^ 63 ->
  NewOldSemVer (OldSemVer_String old) = (old, None).
Proof.
  intros HM Hm HP. destruct old as [M m P].
  cbn [Old_Major Old_Minor Old_Patch] in *.
  unfold NewOldSemVer, NewSemVer, OldSemVer_String.
  cbn [Old_Major Old_Minor Old_Patch].
  rewrite !FormatInt_nonneg by lia.
  change (str "v") with ["v"%byte]. change (str ".") with ["."%byte].
  cbn [app].
  pose proof (round_trip.ParseTolerant_printed (Z.to_N M) (Z.to_N m)
                (Z.to_N P) [] (to_N_max M HM) (to_N_max m Hm)
                (to_N_max P HP) eq_refl (Nat.le_0_l 1)) as Hp.
  cbn [flat_map] in Hp. rewrite app_nil_r in Hp. rewrite Hp.
  cbn [semver.Major semver.Minor semver.Patch].
  rewrite !int64_of_uint64_small by assumption. reflexivity.
Qed.

Lemma NewOldSemVer_round_trip_witness :
  NewOldSemVer (OldSemVer_String
                  {| Old_Major := 1; Old_Minor := 25; Old_Patch := 3 |})
  = ({| Old_Major := 1; Old_Minor := 25; Old_Patch := 3 |}, None).
Proof.
  apply (NewOldSemVer_round_trip
           {| Old_Major := 1; Old_Minor := 25; Old_Patch := 3 |});
    cbn; lia.
Defined.

(** X20.  [NewOldSemVer] keeps the three numbers only.  For a
    well-formed version with at most one prerelease identifier, parsing
    its string into an [OldSemVer] succeeds and yields its numbers
    converted to [int64]; the prerelease is dropped, so printing the
    result gives the string of the release when the numbers are below
    [2^63], while a major number from [2^63] on comes out negative. *)
Theorem NewOldSemVer_of_SemVer (v : SemVer) :
  valid_SemVer v = true -> (length (semver.Pre v) <= 1)%nat ->
  NewOldSemVer (SemVer_String v)
  = ({| Old_Major := int64_of_uint64 (semver.Major v);
        Old_Minor := int64_of_uint64 (semver.Minor v);
        Old_Patch := int64_of_uint64 (semver.Patch v) |}, None)
  /\ ((semver.Major v < 2 ^ 63)%N -> (semver.Minor v < 2 ^ 63)%N ->
      (semver.Patch v < 2 ^ 63)%N ->
      OldSemVer_String (fst (NewOldSemVer (SemVer_String v)))
      = SemVer_String {| semver.Major := semver.Major v;
                         semver.Minor := semver.Minor v;
                         semver.Patch := semver.Patch v;
                         semver.Pre := []; semver.Build := [] |})
  /\ ((2 ^ 63 <= semver.Major v)%N ->
      Old_Major (fst (NewOldSemVer (SemVer_String v)))
      = Z.of_N (semver.Major v) - 2 ^ 64
      /\ Old_Major (fst (NewOldSemVer (SemVer_String v))) < 0).
Proof.
  intros Hv Hone.
  assert (Hparse : NewOldSemVer (SemVer_String v)
            = ({| Old_Major := int64_of_uint64 (semver.Major v);
                  Old_Minor := int64_of_uint64 (semver.Minor v);
                  Old_Patch := int64_of_uint64 (semver.Patch v) |}, None)).
  { unfold valid_SemVer in Hv.
    apply andb_prop in Hv as [Hv Hpre]. apply andb_prop in Hv as [Hv HP].
    apply andb_prop in Hv as [HM Hm].
    apply N.leb_le in HM, Hm, HP.
    unfold NewOldSemVer, NewSemVer. rewrite round_trip.SemVer_String_shape.
    rewrite (round_trip.ParseTolerant_printed _ _ _ _ HM Hm HP Hpre Hone).
    reflexivity. }
  split; [exact Hparse|]. rewrite Hparse. cbn [fst Old_Major].
  split.
  - intros HM Hm HP. unfold OldSemVer_String, SemVer_String.
    cbn [Old_Major Old_Minor Old_Patch semver.Major semver.Minor
         semver.Patch semver.Pre length Nat.ltb Nat.leb].
    assert (Hf : forall n : N, (n < 2 ^ 63)%N ->
               FormatInt (int64_of_uint64 n) = strconv.FormatUint n).
    { intros n Hn.
      assert (Hz : 0 <= Z.of_N n < 2 ^ 63).
      { split; [lia|]. change (2 ^ 63) with (Z.of_N (2 ^ 63)). lia. }
      rewrite <- (N2Z.id n) at 1.
      rewrite int64_of_uint64_small by exact Hz.
      rewrite FormatInt_nonneg by lia. rewrite N2Z.id. reflexivity. }
    rewrite !Hf by assumption. reflexivity.
  - intros HM. unfold valid_SemVer in Hv.
    apply andb_prop in Hv as [Hv _]. apply andb_prop in Hv as [Hv _].
    apply andb_prop in Hv as [Hmax _]. apply N.leb_le in Hmax.
    assert (Hz : 2 ^ 63 <= Z.of_N (semver.Major v) < 2 ^ 64).
    { split.
      - change (2 ^ 63) with (Z.of_N (2 ^ 63)). lia.
      - unfold strconv.maxUint64 in Hmax.
        change (2 ^ 64) with (Z.of_N (2 ^ 64 - 1) + 1). lia. }
    unfold int64_of_uint64. rewrite Z.mod_small by lia.
    destruct (Z.ltb_spec (Z.of_N (semver.Major v)) (2 ^ 63)); lia.
Qed.

Lemma NewOldSemVer_of_SemVer_witness :
  NewOldSemVer (str "v1.2.3-rc")
  = ({| Old_Major := 1; Old_Minor := 2; Old_Patch := 3 |}, None).
Proof.
  assert (Hv : valid_SemVer (fst (NewSemVer (str "v1.2.3-rc"))) = true)
    by (vm_compute; reflexivity).
  assert (H1 : (length (semver.Pre (fst (NewSemVer (str "v1.2.3-rc"))))
                <= 1)%nat) by (cbn; lia).
  exact (proj1 (NewOldSemVer_of_SemVer
                  (fst (NewSemVer (str "v1.2.3-rc"))) Hv H1)).
Defined.

(* ================================================================== *)
(** * The deprecation-file generator *)

Module tool_facts.

Import tool.

Lemma findPackage_lines_spec (lines : list (list byte)) :
  match findPackage_lines lines with
  | Panics =>
      forall line, In line lines ->
        HasPrefix line (str "package") = true ->
        Contains (strings.TrimSpace
                    (strings.TrimPrefix line (str "package")))
                 (str "_test") = true
  | Returns p =>
      Contains p (str "_test") = false
      /\ exists before line after,
           lines = before ++ line :: after
           /\ HasPrefix line (str "package") = true
           /\ p = strings.TrimSpace
                    (strings.TrimPrefix line (str "package"))
           /\ forall l, In l before ->
                HasPrefix l (str "package") = true ->
                Contains (strings.TrimSpace
                            (strings.TrimPrefix l (str "package")))
                         (str "_test") = true
  end.
Proof.
  induction lines as [|line rest IH].
  - cbn. intros line [].
  - cbn [findPackage_lines].
    destruct (HasPrefix line (str "package")) eqn:Hp.
    + destruct (Contains (strings.TrimSpace
                            (strings.TrimPrefix line (str "package")))
                         (str "_test")) eqn:Hc; cbn [negb].
      * destruct (findPackage_lines rest) as [p|].
        -- destruct IH as (Hn & before & l & after & -> & Hl & -> & Hb).
           split; [exact Hn|].
           exists (line :: before), l, after.
           split; [reflexivity|]. split; [exact Hl|].
           split; [reflexivity|].
           intros l' [<- | Hin] Hl'; [exact Hc | exact (Hb l' Hin Hl')].
        -- intros l [<- | Hin] Hl; [exact Hc | exact (IH l Hin Hl)].
      * split; [exact Hc|]. exists [], line, rest.
        split; [reflexivity|]. split; [exact Hp|].
        split; [reflexivity|]. intros l [].
    + destruct (findPackage_lines rest) as [p|].
      * destruct IH as (Hn & before & l & after & -> & Hl & -> & Hb).
        split; [exact Hn|].
        exists (line :: before), l, after.
        split; [reflexivity|]. split; [exact Hl|].
        split; [reflexivity|].
        intros l' [<- | Hin] Hl'; [congruence | exact (Hb l' Hin Hl')].
      * intros l [<- | Hin] Hl; [congruence | exact (IH l Hin Hl)].
Qed.

End tool_facts.

(** X21.  [findPackage] returns the package clause of the first line
    that starts with "package" and whose rest, trimmed of white space,
    does not contain "_test": test packages are passed over and never
    returned.  It panics when the file cannot be read, and when it can
    only if every line starting with "package" names a test package. *)
Theorem findPackage_first_line
        (fs_error : Type) (ReadFile : list byte -> list byte + fs_error)
        (file : list byte) :
  match tool.findPackage fs_error ReadFile file with
  | Returns p =>
      tool.Contains p (str "_test") = false
      /\ exists raw before line after,
           ReadFile file = inl raw
           /\ strings.Split raw x0a = before ++ line :: after
           /\ tool.HasPrefix line (str "package") = true
           /\ p = strings.TrimSpace
                    (strings.TrimPrefix line (str "package"))
           /\ forall l, In l before ->
                tool.HasPrefix l (str "package") = true ->
                tool.Contains (strings.TrimSpace
                                 (strings.TrimPrefix l (str "package")))
                              (str "_test") = true
  | Panics =>
      forall raw, ReadFile file = inl raw ->
        forall line, In line (strings.Split raw x0a) ->
          tool.HasPrefix line (str "package") = true ->
          tool.Contains (strings.TrimSpace
                           (strings.TrimPrefix line (str "package")))
                        (str "_test") = true
  end.
Proof.
  unfold tool.findPackage, tool.Must.
  destruct (ReadFile file) as [raw|e]; [|discriminate].
  pose proof (tool_facts.findPackage_lines_spec (strings.Split raw x0a))
    as H.
  destruct (tool.findPackage_lines (strings.Split raw x0a)) as [p|].
  - destruct H as (Hn & before & line & after & Hs & Hl & Hp & Hb).
    split; [exact Hn|]. exists raw, before, line, after. auto.
  - intros raw' Hr. injection Hr as <-. exact H.
Qed.

(** X22.  [pickAGoFile] joins the directory path with the first entry
    name that ends in ".go" and does not contain "_test", every earlier
    entry failing one of the two tests; it returns the empty string when
    no entry passes, and panics exactly when the directory cannot be
    read. *)
Theorem pickAGoFile_first_entry
        (fs_error : Type)
        (ReadDir : list byte -> list (list byte) + fs_error)
        (Join : list byte -> list byte -> list byte) (path : list byte) :
  match ReadDir path with
  | inr _ => tool.pickAGoFile fs_error ReadDir Join path = Panics
  | inl names =>
      (exists before name after,
          names = before ++ name :: after
          /\ tool.HasSuffix name (str ".go") = true
          /\ tool.Contains name (str "_test") = false
          /\ (forall n, In n before ->
                tool.HasSuffix n (str ".go") = true ->
                tool.Contains n (str "_test") = true)
          /\ tool.pickAGoFile fs_error ReadDir Join path
             = Returns (Join path name))
      \/ ((forall n, In n names ->
             tool.HasSuffix n (str ".go") = true ->
             tool.Contains n (str "_test") = true)
          /\ tool.pickAGoFile fs_error ReadDir Join path = Returns [])
  end.
Proof.
  unfold tool.pickAGoFile, tool.Must.
  destruct (ReadDir path) as [names|e]; [|reflexivity].
  induction names as [|name rest IH].
  - right. split; [intros n []|reflexivity].
  - cbn [tool.pickAGoFile_entries].
    destruct (tool.HasSuffix name (str ".go")) eqn:Hs; cbn [andb].
    + destruct (tool.Contains name (str "_test")) eqn:Hc; cbn [negb].
      * destruct IH as [(before & n & after & -> & Hn1 & Hn2 & Hb & Hr)
                       | (Hall & Hr)].
        -- left. exists (name :: before), n, after.
           split; [reflexivity|]. split; [exact Hn1|].
           split; [exact Hn2|]. split; [|exact Hr].
           intros n' [<- | Hin] Hn'; [exact Hc | exact (Hb n' Hin Hn')].
        -- right. split; [|exact Hr].
           intros n' [<- | Hin] Hn'; [exact Hc | exact (Hall n' Hin Hn')].
      * left. exists [], name, rest.
        split; [reflexivity|]. split; [exact Hs|]. split; [exact Hc|].
        split; [intros n []|reflexivity].
    + destruct IH as [(before & n & after & -> & Hn1 & Hn2 & Hb & Hr)
                     | (Hall & Hr)].
      * left. exists (name :: before), n, after.
        split; [reflexivity|]. split; [exact Hn1|].
        split; [exact Hn2|]. split; [|exact Hr].
        intros n' [<- | Hin] Hn'; [congruence | exact (Hb n' Hin Hn')].
      * right. split; [|exact Hr].
        intros n' [<- | Hin] Hn'; [congruence | exact (Hall n' Hin Hn')].
Qed.

(** The generator on a small directory: the test file and the file whose
    name merely contains "_test" are passed over, the test package clause
    is skipped, and the rest of the chosen line, comment included, is the
    package name. *)
Example tool_samples :
  let ReadDir (_ : list byte) : list (list byte) + unit :=
    inl [str "a_test.go"; str "my_tester.go"; str "README.md"; str "b.go"] in
  let ReadFile (_ : list byte) : list byte + unit :=
    inl (str "// header" ++ [x0a] ++ str "package b_test" ++ [x0a]
         ++ str "package  b // doc" ++ [x0a]) in
  let Join (p n : list byte) : list byte := p ++ str "/" ++ n in
  tool.pickAGoFile unit ReadDir Join (str "pkg") = Returns (str "pkg/b.go")
  /\ tool.findPackage unit ReadFile (str "pkg/b.go")
     = Returns (str "b // doc")
  /\ tool.findPackage unit (fun _ => inr tt) (str "pkg/b.go") = Panics.
Proof.
  intros ReadDir ReadFile Join.
  split; [vm_compute; reflexivity|].
  split; vm_compute; reflexivity.
Qed.

(* ================================================================== *)
(** * Further compositions *)

(** X23.  Above 100 percent the precise mapper loses a byte as the
    legacy one does: for a scaled percentage [k = int64(pct*10000)] in
    [1000001, 256000000] the product has 33 bytes, and the cursor's value
    is [floor(floor(MAX/1000000) * k / 256)]. *)
Theorem PercentageToCursorF_above_100 (pct : float) :
  1000001 <= scaled pct <= 256000000 ->
  length (PercentageToCursorF pct) = 32%nat
  /\ be_value (PercentageToCursorF pct)
     = MAX / 1000000 * scaled pct / 256.
Proof.
  intros Hk. rewrite PercentageToCursorF_unfold.
  assert (Hq : MAX / 1000000
               = 115792089237316195423570985008687907853269984665640564039457584007913129)
    by (vm_compute; reflexivity).
  apply cursor_of_long. rewrite Hq. lia.
Qed.

Lemma PercentageToCursorF_above_100_witness :
  be_value (PercentageToCursorF 150) = MAX / 1000000 * 1500000 / 256.
Proof.
  assert (E : scaled 150 = 1500000) by (vm_compute; reflexivity).
  assert (Hk : 1000001 <= scaled 150 <= 256000000) by (rewrite E; lia).
  pose proof (proj2 (PercentageToCursorF_above_100 150%float Hk)) as H.
  rewrite E in H. exact H.
Defined.

(** X24.  The decision under the two extreme cursors.  When both
    versions of the requirement parse and the current version is below the
    suggested one: with the legacy cursor of 100 percent every node is
    offered an update, the minimum if it is below it and the suggested
    version otherwise, and no node is left waiting; with the all-zero
    cursor a node at or above the minimum whose digest is not all zero is
    left waiting. *)
Theorem ShouldUpdateVersion_extreme_cursors
        (currentVersion sv mv : SemVer) (nodeID : NodeID)
        (requested : Process) :
  NewSemVer (Version_ (Suggested requested)) = (sv, None) ->
  NewSemVer (Version_ (Minimum requested)) = (mv, None) ->
  Compare currentVersion sv < 0 ->
  (Cursor (Rollout_ requested) = PercentageToCursor 100 ->
   ShouldUpdateVersion currentVersion nodeID requested
   = if Compare currentVersion mv <? 0
     then (Minimum requested, reason_below_minimum, None)
     else (Suggested requested, reason_candidate, None))
  /\ (Cursor (Rollout_ requested) = PercentageToCursor 0 ->
      hmac.Sum (Seed (Rollout_ requested)) nodeID <> zeroRolloutBytes ->
      0 <= Compare currentVersion mv ->
      ShouldUpdateVersion currentVersion nodeID requested
      = (Version_zero, reason_pending, None)).
Proof.
  intros Hs Hm Hlt.
  pose proof (digest_range (Seed (Rollout_ requested)) nodeID) as Hd.
  unfold ShouldUpdateVersion, Version_SemVer. rewrite Hs, Hm.
  destruct (Z.leb_spec 0 (Compare currentVersion sv)); [lia|].
  split.
  - intros Hc. destruct (Compare currentVersion mv <? 0); [reflexivity|].
    assert (Hin : isRolloutCandidate nodeID (Rollout_ requested) = true).
    { apply candidate_le; rewrite Hc; [reflexivity|].
      replace (be_value (PercentageToCursor 100)) with MAX
        by (vm_compute; reflexivity).
      lia. }
    rewrite Hin. reflexivity.
  - intros Hc Hnz Hge.
    destruct (Z.ltb_spec (Compare currentVersion mv) 0); [lia|].
    destruct (isRolloutCandidate nodeID (Rollout_ requested)) eqn:Hin;
      [|reflexivity].
    exfalso. apply Hnz.
    apply candidate_le in Hin; [|rewrite Hc; reflexivity].
    rewrite Hc in Hin.
    replace (be_value (PercentageToCursor 0)) with 0 in Hin by reflexivity.
    assert (Hz : be_value (hmac.Sum (Seed (Rollout_ requested)) nodeID) = 0)
      by lia.
    apply be_value_zero in Hz. rewrite hmac_Sum_length in Hz. exact Hz.
Qed.

Lemma ShouldUpdateVersion_extreme_cursors_witness :
  let requested :=
    {| Minimum := {| Version_ := str "v1.0.0"; URL := str "min" |};
       Suggested := {| Version_ := str "v1.1.0"; URL := str "sug" |};
       Rollout_ := {| Seed := zeroRolloutBytes;
                      Cursor := PercentageToCursor 100 |} |} in
  ShouldUpdateVersion (fst (NewSemVer (str "v1.0.5"))) (repeat x01 32)
                      requested
  = (Suggested requested, reason_candidate, None).
Proof.
  intros requested.
  assert (Hs : NewSemVer (Version_ (Suggested requested))
               = (fst (NewSemVer (str "v1.1.0")), None))
    by (vm_compute; reflexivity).
  assert (Hm : NewSemVer (Version_ (Minimum requested))
               = (fst (NewSemVer (str "v1.0.0")), None))
    by (vm_compute; reflexivity).
  assert (Hlt : Compare (fst (NewSemVer (str "v1.0.5")))
                        (fst (NewSemVer (str "v1.1.0"))) < 0)
    by (vm_compute; reflexivity).
  exact (proj1 (ShouldUpdateVersion_extreme_cursors
                  (fst (NewSemVer (str "v1.0.5"))) _ _ (repeat x01 32)
                  requested Hs Hm Hlt) eq_refl).
Defined.

Module tolerant_facts.

Import strings semver strings_facts semver_facts.

(** Leading ASCII white space is dropped byte by byte until a text that
    starts with no white space is reached. *)
Lemma drop_all_pad (pats : list (list byte)) (l rest : list byte) :
  (forall a u, ContainsByte [x09; x0a; x0b; x0c; x0d; x20] a = true ->
               drop_one pats (a :: u) = Some u) ->
  forallb (ContainsByte [x09; x0a; x0b; x0c; x0d; x20]) l = true ->
  drop_one pats rest = None ->
  forall fuel, (length l <= fuel)%nat ->
    drop_all fuel pats (l ++ rest) = rest.
Proof.
  intros Hws Hl Hrest. induction l as [|a l IH]; intros fuel Hf.
  - destruct fuel; cbn [app drop_all]; [reflexivity|].
    rewrite Hrest. reflexivity.
  - cbn [forallb] in Hl. apply andb_prop in Hl as [Ha Hl].
    destruct fuel as [|fuel]; [cbn in Hf; lia|].
    cbn [app drop_all]. rewrite (Hws a _ Ha).
    apply (IH Hl). cbn in Hf. lia.
Qed.

Lemma drop_one_ws (a : byte) (u : list byte) :
  ContainsByte [x09; x0a; x0b; x0c; x0d; x20] a = true ->
  drop_one spaces (a :: u) = Some u
  /\ drop_one (map (@rev byte) spaces) (a :: u) = Some u.
Proof.
  intros H. destruct a; vm_compute in H; try discriminate H;
    split; reflexivity.
Qed.

Lemma drop_one_front (c : byte) (u : list byte) :
  ContainsByte alphanum c = true -> drop_one spaces (c :: u) = None.
Proof.
  intros H. destruct c; vm_compute in H; try discriminate H; reflexivity.
Qed.

Lemma forallb_rev (P : byte -> bool) (l : list byte) :
  forallb P (rev l) = forallb P l.
Proof.
  induction l as [|a l IH]; [reflexivity|].
  cbn [rev forallb]. rewrite forallb_app, IH. cbn [forallb].
  rewrite andb_true_r. apply andb_comm.
Qed.

(** [TrimSpace] removes ASCII white space around a text that starts and
    ends with a letter, a digit or a hyphen. *)
Lemma TrimSpace_padded (l r w : list byte) (c0 c : byte) :
  forallb (ContainsByte [x09; x0a; x0b; x0c; x0d; x20]) l = true ->
  forallb (ContainsByte [x09; x0a; x0b; x0c; x0d; x20]) r = true ->
  ContainsByte alphanum c0 = true -> ContainsByte alphanum c = true ->
  TrimSpace (l ++ (c0 :: w ++ [c]) ++ r) = c0 :: w ++ [c].
Proof.
  intros Hl Hr Hc0 Hc. unfold TrimSpace.
  rewrite (drop_all_pad spaces l ((c0 :: w ++ [c]) ++ r)
             (fun a u H => proj1 (drop_one_ws a u H)) Hl
             (drop_one_front c0 _ Hc0))
    by (rewrite length_app; lia).
  assert (Hrev : rev ((c0 :: w ++ [c]) ++ r)
                 = rev r ++ c :: rev (c0 :: w)).
  { rewrite rev_app_distr. f_equal.
    change (c0 :: w ++ [c]) with ((c0 :: w) ++ [c]).
    rewrite rev_unit. reflexivity. }
  rewrite Hrev.
  rewrite (drop_all_pad (map (@rev byte) spaces) (rev r)
             (c :: rev (c0 :: w))
             (fun a u H => proj2 (drop_one_ws a u H)));
    [ | rewrite forallb_rev; exact Hr
      | apply drop_one_alphanum; exact Hc
      | rewrite length_app, length_rev; lia ].
  change (c :: rev (c0 :: w)) with (rev [c] ++ rev (c0 :: w)).
  rewrite <- rev_app_distr, rev_involutive. reflexivity.
Qed.

Lemma ParseTolerant_trimmed (x y : list byte) :
  TrimPrefix (TrimSpace x) (str "v") = TrimPrefix (TrimSpace y) (str "v") ->
  ParseTolerant x = ParseTolerant y.
Proof. unfold ParseTolerant. intros ->. reflexivity. Qed.

Lemma digit_first (n : N) :
  (n <= strconv.maxUint64)%N ->
  exists d u, strconv.FormatUint n = d :: u
              /\ ContainsByte alphanum d = true
              /\ Byte.eqb "v" d = false.
Proof.
  intros Hn.
  destruct (strconv_facts.FormatUint_spec n Hn) as (Hd & _ & _ & Hne).
  destruct (strconv.FormatUint n) as [|d u]; [contradiction|].
  cbn [forallb] in Hd. apply andb_prop in Hd as [Hd _].
  exists d, u. split; [reflexivity|].
  split; [apply (digit_classes d Hd)|].
  destruct d; vm_compute in Hd; try discriminate Hd; reflexivity.
Qed.

End tolerant_facts.

(** X25.  [NewSemVer] is tolerant of the form of a version: around the
    printed form of a well-formed version with at most one prerelease
    identifier, ASCII white space on either side is ignored and the
    leading [v] is optional; every such text parses to the version
    without build metadata. *)
Theorem NewSemVer_tolerant (v : SemVer) (l r : list byte) :
  valid_SemVer v = true -> (length (semver.Pre v) <= 1)%nat ->
  forallb (strings.ContainsByte [x09; x0a; x0b; x0c; x0d; x20]) l = true ->
  forallb (strings.ContainsByte [x09; x0a; x0b; x0c; x0d; x20]) r = true ->
  NewSemVer (l ++ SemVer_String v ++ r) = (without_build v, None)
  /\ NewSemVer (l ++ skipn 1 (SemVer_String v) ++ r)
     = (without_build v, None).
Proof.
  intros Hv Hone Hl Hr.
  unfold valid_SemVer in Hv.
  apply andb_prop in Hv as [Hv Hpre]. apply andb_prop in Hv as [Hv HP].
  apply andb_prop in Hv as [HM Hm].
  apply N.leb_le in HM, Hm, HP.
  pose proof (round_trip.ParseTolerant_printed _ _ _ _ HM Hm HP Hpre Hone)
    as Hp.
  destruct (round_trip.body_ends _ _ _ _ HM Hm HP Hpre Hone)
    as (w & c & Hb & Hc).
  cbv zeta in Hp, Hb.
  destruct (tolerant_facts.digit_first _ HM) as (d & u & Hd & Hda & Hdv).
  rewrite round_trip.SemVer_String_shape. cbn [skipn].
  remember (strconv.FormatUint (semver.Major v)
            ++ "."%byte :: strconv.FormatUint (semver.Minor v)
            ++ "."%byte :: strconv.FormatUint (semver.Patch v)
            ++ flat_map (fun val => "-"%byte :: semver.PRVersion_String val)
                        (semver.Pre v)) as body eqn:Eb.
  assert (Hw : exists w0, body = d :: w0 ++ [c]).
  { destruct w as [|d' w0].
    - exfalso. rewrite Hb, Hd in Eb. cbn [app] in Eb.
      injection Eb as _ Eb. destruct u; discriminate Eb.
    - exists w0. rewrite Hb, Hd in Eb. cbn [app] in Eb.
      injection Eb as -> _. exact Hb. }
  destruct Hw as (w0 & Hw).
  assert (T0 : strings.TrimSpace ("v"%byte :: body) = "v"%byte :: body)
    by (rewrite Hb; apply (strings_facts.TrimSpace_version w c Hc)).
  assert (T1 : strings.TrimSpace (l ++ ("v"%byte :: body) ++ r)
               = "v"%byte :: body)
    by (rewrite Hb;
        apply (tolerant_facts.TrimSpace_padded l r w "v" c Hl Hr eq_refl Hc)).
  assert (T2 : strings.TrimSpace (l ++ body ++ r) = body)
    by (rewrite Hw;
        apply (tolerant_facts.TrimSpace_padded l r w0 d c Hl Hr Hda Hc)).
  assert (P2 : strings.TrimPrefix body (str "v") = body).
  { rewrite Hw. unfold strings.TrimPrefix.
    change (str "v") with ["v"%byte]. cbn [strings.strip_prefix].
    rewrite Hdv. reflexivity. }
  unfold NewSemVer. split.
  - rewrite (tolerant_facts.ParseTolerant_trimmed _ ("v"%byte :: body))
      by (rewrite T1, T0; reflexivity).
    rewrite Hp. reflexivity.
  - rewrite (tolerant_facts.ParseTolerant_trimmed _ ("v"%byte :: body))
      by (rewrite T2, T0, P2; reflexivity).
    rewrite Hp. reflexivity.
Qed.

Lemma NewSemVer_tolerant_witness :
  NewSemVer (str "  1.2.3-rc ") = (fst (NewSemVer (str "v1.2.3-rc")), None).
Proof.
  assert (Hv : valid_SemVer (fst (NewSemVer (str "v1.2.3-rc"))) = true)
    by (vm_compute; reflexivity).
  assert (H1 : (length (semver.Pre (fst (NewSemVer (str "v1.2.3-rc"))))
                <= 1)%nat) by (cbn; lia).
  assert (Hl : forallb (strings.ContainsByte
                          [x09; x0a; x0b; x0c; x0d; x20]) (str "  ") = true)
    by reflexivity.
  assert (Hr : forallb (strings.ContainsByte
                          [x09; x0a; x0b; x0c; x0d; x20]) (str " ") = true)
    by reflexivity.
  exact (proj2 (NewSemVer_tolerant (fst (NewSemVer (str "v1.2.3-rc")))
                  (str "  ") (str " ") Hv H1 Hl Hr)).
Defined.
